(** * ConnectionPool (src/database/pool.ts): a shallow embedding

    The pool is a JavaScript object living on a single-threaded event loop.
    The embedding keeps the four fields of the class under their own names
    and adds the part of the runtime the methods talk to: the promises
    handed to callers of [acquire], the timers armed by [setTimeout], the
    continuations of un-awaited async calls, the wall clock read by
    [new Date()] and the console.

    Conventions.
    - Object identity.  A [PrismaClient] instance is a [Client] (a number
      drawn from [nextClient]); a [PoolConnection] object is created
      together with its client at pool.ts:164 and is identified by it, so
      [indexOf(connection)] is a search for that client.
    - Numbers are integers ([Z]): milliseconds and counts.  The optional
      fields of [ConnectionPoolConfig] are [option JsNumber] so that
      [undefined], [0] and [NaN] can all be written.
    - An async method whose body has no interleaving point of interest is a
      function [World -> Completion _ * World]; where the source leaves a
      call un-awaited (pool.ts:207) its continuation is queued in [jobs].
*)

From stdpp Require Import gmap strings list.
From Stdlib Require Import ZArith Lia.

Set Default Proof Using "Type".

(** ** Values *)

Abbreviation Client := nat (only parsing).
Abbreviation PromiseId := nat (only parsing).

Inductive Error := MkError (message : string).

Global Instance Error_eq_dec : EqDecision Error.
Proof. solve_decision. Defined.

Inductive Completion (T : Type) :=
| Normal (value : T)
| Throw (error : Error).
Arguments Normal {T} _.
Arguments Throw {T} _.

Inductive JsNumber :=
| Num (z : Z)
| NaN.

(** [x || d] for an optional number [x] and a numeric default [d]
    (pool.ts:43-44, 198): [undefined], [0] and [NaN] are falsy. *)
Definition falsy (x : option JsNumber) : bool :=
  match x with
  | None => true
  | Some NaN => true
  | Some (Num z) => (z =? 0)%Z
  end.

Definition or_default (x : option JsNumber) (d : Z) : Z :=
  match x with
  | Some (Num z) => if (z =? 0)%Z then d else z
  | _ => d
  end.

Inductive LogEntry :=
| ConsoleLog (text : string)
| ConsoleWarn (text : string)
| ConsoleError (text : string).

(** ** The data model of pool.ts:9-38 *)

Record ConnectionPoolConfig := {
  size : Z;
  databaseUrl : string;
  timeout : option JsNumber;
  idleTimeout : option JsNumber;
}.

Record PoolStatus := {
  total : nat;
  active : nat;
  idle : nat;
  waiting : nat;
}.

Record PoolConnection := {
  client : Client;
  inUse : bool;
  lastUsed : Z;
  createdAt : Z;
}.

(** Function objects held by a queue entry.  [ExecutorResolve p] and
    [ExecutorReject p] are the two parameters of the promise executor at
    pool.ts:87; [WaiterResolve p] and [WaiterReject p] are the arrow
    functions created at pool.ts:100-107, which clear the timer and then
    call the former.  They are four distinct objects. *)
Inductive ResolveFn :=
| ExecutorResolve (p : PromiseId)
| WaiterResolve (p : PromiseId).

Inductive RejectFn :=
| ExecutorReject (p : PromiseId)
| WaiterReject (p : PromiseId).

Global Instance ResolveFn_eq_dec : EqDecision ResolveFn.
Proof. solve_decision. Defined.

Record Waiter := {
  resolve : ResolveFn;
  reject : RejectFn;
  timestamp : Z;
}.

Inductive PromiseState :=
| Pending
| Fulfilled (c : Client)
| Rejected (e : Error).

Global Instance PromiseState_eq_dec : EqDecision PromiseState.
Proof. solve_decision. Defined.

(** ** The pool object and the runtime around it *)

Record World := {
  (* fields of the class, pool.ts:31-38 *)
  config : ConnectionPoolConfig;
  connections : list PoolConnection;
  waitQueue : list Waiter;
  initialized : bool;
  (* the runtime *)
  promises : gmap PromiseId PromiseState;  (* promises returned by acquire() *)
  timers : gmap PromiseId Z;               (* armed setTimeout, with its due time *)
  jobs : list PoolConnection;              (* removeConnection calls suspended at their await *)
  nextPromise : nat;
  nextClient : nat;
  clock : Z;                               (* what new Date().getTime() returns *)
  console : list LogEntry;
}.

Definition with_config (w : World) (x : ConnectionPoolConfig) : World :=
  {| config := x; connections := connections w; waitQueue := waitQueue w;
     initialized := initialized w; promises := promises w; timers := timers w;
     jobs := jobs w; nextPromise := nextPromise w; nextClient := nextClient w;
     clock := clock w; console := console w |}.

Definition with_connections (w : World) (x : list PoolConnection) : World :=
  {| config := config w; connections := x; waitQueue := waitQueue w;
     initialized := initialized w; promises := promises w; timers := timers w;
     jobs := jobs w; nextPromise := nextPromise w; nextClient := nextClient w;
     clock := clock w; console := console w |}.

Definition with_waitQueue (w : World) (x : list Waiter) : World :=
  {| config := config w; connections := connections w; waitQueue := x;
     initialized := initialized w; promises := promises w; timers := timers w;
     jobs := jobs w; nextPromise := nextPromise w; nextClient := nextClient w;
     clock := clock w; console := console w |}.

Definition with_initialized (w : World) (x : bool) : World :=
  {| config := config w; connections := connections w; waitQueue := waitQueue w;
     initialized := x; promises := promises w; timers := timers w;
     jobs := jobs w; nextPromise := nextPromise w; nextClient := nextClient w;
     clock := clock w; console := console w |}.

Definition with_promises (w : World) (x : gmap PromiseId PromiseState) : World :=
  {| config := config w; connections := connections w; waitQueue := waitQueue w;
     initialized := initialized w; promises := x; timers := timers w;
     jobs := jobs w; nextPromise := nextPromise w; nextClient := nextClient w;
     clock := clock w; console := console w |}.

Definition with_timers (w : World) (x : gmap PromiseId Z) : World :=
  {| config := config w; connections := connections w; waitQueue := waitQueue w;
     initialized := initialized w; promises := promises w; timers := x;
     jobs := jobs w; nextPromise := nextPromise w; nextClient := nextClient w;
     clock := clock w; console := console w |}.

Definition with_jobs (w : World) (x : list PoolConnection) : World :=
  {| config := config w; connections := connections w; waitQueue := waitQueue w;
     initialized := initialized w; promises := promises w; timers := timers w;
     jobs := x; nextPromise := nextPromise w; nextClient := nextClient w;
     clock := clock w; console := console w |}.

Definition with_nextPromise (w : World) (x : nat) : World :=
  {| config := config w; connections := connections w; waitQueue := waitQueue w;
     initialized := initialized w; promises := promises w; timers := timers w;
     jobs := jobs w; nextPromise := x; nextClient := nextClient w;
     clock := clock w; console := console w |}.

Definition with_nextClient (w : World) (x : nat) : World :=
  {| config := config w; connections := connections w; waitQueue := waitQueue w;
     initialized := initialized w; promises := promises w; timers := timers w;
     jobs := jobs w; nextPromise := nextPromise w; nextClient := x;
     clock := clock w; console := console w |}.

Definition with_clock (w : World) (x : Z) : World :=
  {| config := config w; connections := connections w; waitQueue := waitQueue w;
     initialized := initialized w; promises := promises w; timers := timers w;
     jobs := jobs w; nextPromise := nextPromise w; nextClient := nextClient w;
     clock := x; console := console w |}.

Definition log (entry : LogEntry) (w : World) : World :=
  {| config := config w; connections := connections w; waitQueue := waitQueue w;
     initialized := initialized w; promises := promises w; timers := timers w;
     jobs := jobs w; nextPromise := nextPromise w; nextClient := nextClient w;
     clock := clock w; console := console w ++ [entry] |}.

(** What the collaborators outside the pool do: whether [$connect()],
    [$disconnect()] on a given client reject. *)
Record Env := {
  connectFails : Client -> bool;
  disconnectFails : Client -> bool;
}.

Definition connectError : Error := MkError "connect failed".
Definition disconnectError : Error := MkError "disconnect failed".
Definition AcquireTimeoutError : Error := MkError "Connection pool timeout".
Definition PoolClosingError : Error := MkError "Connection pool is closing".

(** ** Promises and timers *)

(** The promise a [resolve] function settles. *)
Definition target (f : ResolveFn) : PromiseId :=
  match f with
  | ExecutorResolve p => p
  | WaiterResolve p => p
  end.

(** Settling a promise: only a pending promise changes state. *)
Definition settle (p : PromiseId) (s : PromiseState) (w : World) : World :=
  match promises w !! p with
  | Some Pending => with_promises w (<[p := s]> (promises w))
  | _ => w
  end.

Definition clearTimeout (p : PromiseId) (w : World) : World :=
  with_timers w (delete p (timers w)).

Definition call_resolve (f : ResolveFn) (c : Client) (w : World) : World :=
  match f with
  | ExecutorResolve p => settle p (Fulfilled c) w
  | WaiterResolve p => settle p (Fulfilled c) (clearTimeout p w)
  end.

Definition call_reject (f : RejectFn) (e : Error) (w : World) : World :=
  match f with
  | ExecutorReject p => settle p (Rejected e) w
  | WaiterReject p => settle p (Rejected e) (clearTimeout p w)
  end.

(** ** constructor, pool.ts:40-46 *)

Definition constructor (cfg : ConnectionPoolConfig) : World :=
  {| config :=
       {| size := size cfg;
          databaseUrl := databaseUrl cfg;
          timeout := Some (Num (or_default (timeout cfg) 30000));
          idleTimeout := Some (Num (or_default (idleTimeout cfg) 60000)) |};
     connections := [];
     waitQueue := [];
     initialized := false;
     promises := ∅;
     timers := ∅;
     jobs := [];
     nextPromise := 0;
     nextClient := 0;
     clock := 0;
     console := [] |}.

(** ** acquire, pool.ts:76-111

    An async function: its caller always receives a promise, named by the
    returned [PromiseId].  On the first branch that promise is already
    fulfilled with the client; on the second it is the promise built at
    pool.ts:87, pending, with a timer armed and a queue entry pushed. *)

Definition mark_acquired (now : Z) (conn : PoolConnection) : PoolConnection :=
  {| client := client conn; inUse := true; lastUsed := now;
     createdAt := createdAt conn |}.

Definition acquire (w : World) : PromiseId * World :=
  let p := nextPromise w in
  match list_find (λ conn, inUse conn = false) (connections w) with
  | Some (i, connection) =>
      let w1 := with_connections w
                  (<[i := mark_acquired (clock w) connection]> (connections w)) in
      let w2 := with_promises w1 (<[p := Fulfilled (client connection)]> (promises w1)) in
      (p, with_nextPromise w2 (S p))
  | None =>
      let w1 := with_promises w (<[p := Pending]> (promises w)) in
      let w2 := with_timers w1
                  (<[p := (clock w + or_default (timeout (config w)) 0)%Z]> (timers w1)) in
      let w3 := with_waitQueue w2
                  (waitQueue w2 ++
                   [{| resolve := WaiterResolve p; reject := WaiterReject p;
                       timestamp := clock w |}]) in
      (p, with_nextPromise w3 (S p))
  end.

(** The timer callback of pool.ts:88-97.  It looks for a queue entry whose
    [resolve] is the executor's own [resolve]. *)
Definition onTimeout (p : PromiseId) (w : World) : World :=
  let w1 :=
    match list_find (λ item, resolve item = ExecutorResolve p) (waitQueue w) with
    | Some (index, _) => with_waitQueue w (delete index (waitQueue w))
    | None => w
    end in
  call_reject (ExecutorReject p) AcquireTimeoutError w1.

(** The event loop running a due timer: a timer fires once, and only while
    it is armed. *)
Definition fireTimer (p : PromiseId) (w : World) : World :=
  match timers w !! p with
  | Some due =>
      if (due <=? clock w)%Z
      then onTimeout p (with_timers w (delete p (timers w)))
      else w
  | None => w
  end.

(** ** release, pool.ts:116-135 *)

Definition set_inUse (b : bool) (conn : PoolConnection) : PoolConnection :=
  {| client := client conn; inUse := b; lastUsed := lastUsed conn;
     createdAt := createdAt conn |}.

Definition mark_released (now : Z) (conn : PoolConnection) : PoolConnection :=
  {| client := client conn; inUse := false; lastUsed := now;
     createdAt := createdAt conn |}.

Definition release (c : Client) (w : World) : Completion unit * World :=
  match list_find (λ conn, client conn = c) (connections w) with
  | None =>
      (Normal tt, log (ConsoleWarn "Attempted to release unknown connection") w)
  | Some (i, connection) =>
      let w1 := with_connections w
                  (<[i := mark_released (clock w) connection]> (connections w)) in
      match waitQueue w1 with
      | [] => (Normal tt, w1)
      | waiter :: rest =>
          let w2 := with_waitQueue w1 rest in
          let w3 := with_connections w2
                      (alter (set_inUse true) i (connections w2)) in
          (Normal tt, call_resolve (resolve waiter) c w3)
      end
  end.

(** ** getStatus, pool.ts:218-228 *)

Definition getStatus (w : World) : PoolStatus :=
  {| total := length (connections w);
     active := length (filter (λ conn, inUse conn = true) (connections w));
     idle := length (filter (λ conn, inUse conn = false) (connections w));
     waiting := length (waitQueue w) |}.

(** ** createConnection, pool.ts:152-174 *)

Definition new_connection (c : Client) (now : Z) : PoolConnection :=
  {| client := c; inUse := false; lastUsed := now; createdAt := now |}.

Definition createConnection (env : Env) (w : World) : Completion unit * World :=
  let c := nextClient w in
  let w1 := with_nextClient w (S c) in
  if connectFails env c
  then (Throw connectError, log (ConsoleError "Failed to create connection:") w1)
  else (Normal tt,
        with_connections w1 (connections w1 ++ [new_connection c (clock w1)])).

(** [for (let i = 0; i < n; i++) await this.createConnection()], leaving the
    loop at the first rejection (pool.ts:58-60 and 275-277). *)
Fixpoint createConnections (env : Env) (n : nat) (w : World)
  : Completion unit * World :=
  match n with
  | 0 => (Normal tt, w)
  | S n' =>
      match createConnection env w with
      | (Normal _, w1) => createConnections env n' w1
      | (Throw e, w1) => (Throw e, w1)
      end
  end.

(** ** removeConnection, pool.ts:179-190

    The body suspends at [await connection.client.$disconnect()].
    [removeConnection_resume] is what runs after that await; a caller that
    awaits the call ([resize]) sees the whole body run before it goes on,
    a caller that does not (the cleanup timer) only queues it. *)

Definition indexOf (connection : PoolConnection) (l : list PoolConnection)
  : option nat :=
  fst <$> list_find (λ conn, client conn = client connection) l.

Definition removeConnection_resume (env : Env) (connection : PoolConnection)
    (w : World) : World :=
  if disconnectFails env (client connection)
  then log (ConsoleError "Error removing connection:") w
  else match indexOf connection (connections w) with
       | Some index => with_connections w (delete index (connections w))
       | None => w
       end.

Definition removeConnection (env : Env) (connection : PoolConnection)
    (w : World) : World :=
  removeConnection_resume env connection w.

Definition removeConnection_unawaited (connection : PoolConnection)
    (w : World) : World :=
  with_jobs w (jobs w ++ [connection]).

(** Running the queued continuations, oldest first. *)
Definition runJob (env : Env) (w : World) : World :=
  match jobs w with
  | [] => w
  | connection :: rest =>
      removeConnection_resume env connection (with_jobs w rest)
  end.

Fixpoint runJobs (env : Env) (n : nat) (w : World) : World :=
  match n with
  | 0 => w
  | S n' => runJobs env n' (runJob env w)
  end.

Definition drainJobs (env : Env) (w : World) : World :=
  runJobs env (length (jobs w)) w.

(** ** [for (const connection of this.connections)]

    The array iterator keeps an index into the live array: each step reads
    [this.connections[index]] and stops when the index has reached the
    current length.  [L] is the loop's local state. *)
Fixpoint for_of {L : Type} (fuel : nat) (index : nat)
    (body : PoolConnection -> L * World -> L * World) (s : L * World)
  : L * World :=
  match fuel with
  | 0 => s
  | S fuel' =>
      match connections (snd s) !! index with
      | None => s
      | Some connection => for_of fuel' (S index) body (body connection s)
      end
  end.

(** ** The idle cleanup callback, pool.ts:196-212 *)

Definition cleanup_body (now limit : Z) (connection : PoolConnection)
    (s : unit * World) : unit * World :=
  let w := snd s in
  if negb (inUse connection)
  then
    let idleTime := (now - lastUsed connection)%Z in
    if (limit <? idleTime)%Z
    then
      if (size (config w) / 2 <? Z.of_nat (length (connections w)))%Z
      then (tt, removeConnection_unawaited connection w)
      else s
    else s
  else s.

Definition cleanupTick (w : World) : World :=
  let now := clock w in
  let limit := or_default (idleTimeout (config w)) 60000 in
  snd (for_of (length (connections w)) 0 (cleanup_body now limit) (tt, w)).

(** One whole pass: the callback, then the continuations it left behind. *)
Definition cleanupPass (env : Env) (w : World) : World :=
  drainJobs env (cleanupTick w).

(** ** resize, pool.ts:269-293

    Every call inside is awaited; the awaits are taken to resume at once,
    so the method is one uninterrupted step.  The shrinking loop iterates
    over the array its body removes from. *)

Definition shrink_body (env : Env) (toRemove : nat)
    (connection : PoolConnection) (s : nat * World) : nat * World :=
  let '(removed, w) := s in
  if negb (inUse connection) && (removed <? toRemove)
  then (S removed, removeConnection env connection w)
  else s.

Definition set_size (n : Z) (w : World) : World :=
  with_config w
    {| size := n; databaseUrl := databaseUrl (config w);
       timeout := timeout (config w); idleTimeout := idleTimeout (config w) |}.

Definition resize_done (newSize : Z) (w : World) : Completion unit * World :=
  (Normal tt,
   log (ConsoleLog "Connection pool resized") (set_size newSize w)).

Definition resize (env : Env) (newSize : Z) (w : World)
  : Completion unit * World :=
  let currentSize := Z.of_nat (length (connections w)) in
  if (currentSize <? newSize)%Z
  then
    let toAdd := Z.to_nat (newSize - currentSize) in
    match createConnections env toAdd w with
    | (Normal _, w1) => resize_done newSize w1
    | (Throw e, w1) => (Throw e, w1)
    end
  else if (newSize <? currentSize)%Z
  then
    let toRemove := Z.to_nat (currentSize - newSize) in
    let '(_, w1) :=
      for_of (length (connections w)) 0 (shrink_body env toRemove) (0, w) in
    resize_done newSize w1
  else resize_done newSize w.

(** ** initialize, pool.ts:51-71

    [startIdleConnectionCleanup] arms an interval that is never cleared;
    its firings are the [ECleanupTick] events below. *)

Definition initialize (env : Env) (w : World) : Completion unit * World :=
  if initialized w then (Normal tt, w)
  else
    match createConnections env (Z.to_nat (size (config w))) w with
    | (Normal _, w1) =>
        (Normal tt,
         log (ConsoleLog "Connection pool initialized")
             (with_initialized w1 true))
    | (Throw e, w1) =>
        (Throw e, log (ConsoleError "Failed to initialize connection pool:") w1)
    end.

(** ** close, pool.ts:233-250

    There is no [try] around [await Promise.all(closePromises)]: when a
    [$disconnect()] rejects, the two assignments after it are not run. *)

Definition rejectAll (e : Error) (queue : list Waiter) (w : World) : World :=
  fold_left (λ acc waiter, call_reject (reject waiter) e acc) queue w.

Definition close (env : Env) (w : World) : Completion unit * World :=
  let w1 := rejectAll PoolClosingError (waitQueue w) w in
  let w2 := with_waitQueue w1 [] in
  (* every $disconnect() is started; Promise.all rejects if one of them does *)
  if existsb (λ conn, disconnectFails env (client conn)) (connections w2)
  then (Throw disconnectError, w2)
  else
    (Normal tt,
     log (ConsoleLog "Connection pool closed")
         (with_initialized (with_connections w2 []) false)).

(** ** execute, pool.ts:140-147

    [await this.acquire()] resumes at once when the promise is already
    settled.  Otherwise the caller is suspended and the event loop runs
    whatever else is due; [wait] stands for all of it.  If the promise is
    still pending afterwards the caller has not been resumed and [execute]
    has produced nothing ([None]).  [fn] is the caller's operation: it may
    change the world in any way and completes normally or throws. *)

Definition outcome_of (s : PromiseState) : option (Completion Client) :=
  match s with
  | Pending => None
  | Fulfilled c => Some (Normal c)
  | Rejected e => Some (Throw e)
  end.

Definition await_acquire (wait : World -> World) (p : PromiseId) (w : World)
  : option (Completion Client) * World :=
  match promises w !! p ≫= outcome_of with
  | Some r => (Some r, w)
  | None => let w' := wait w in (promises w' !! p ≫= outcome_of, w')
  end.

(** [try { body } finally { finalizer }]: the finalizer runs whatever the
    body's completion; a throwing finalizer replaces that completion. *)
Definition try_finally {T : Type} (body : World -> Completion T * World)
    (finalizer : World -> Completion unit * World) (w : World)
  : Completion T * World :=
  let '(r, w1) := body w in
  match finalizer w1 with
  | (Normal _, w2) => (r, w2)
  | (Throw e, w2) => (Throw e, w2)
  end.

Definition execute {T : Type} (wait : World -> World)
    (fn : Client -> World -> Completion T * World) (w : World)
  : option (Completion T) * World :=
  let '(p, w1) := acquire w in
  match await_acquire wait p w1 with
  | (None, w2) => (None, w2)
  | (Some (Throw e), w2) => (Some (Throw e), w2)
  | (Some (Normal client), w2) =>
      let '(r, w3) := try_finally (fn client) (release client) w2 in
      (Some r, w3)
  end.

(** ** healthCheck, pool.ts:298-342 *)

Inductive HealthStatus := healthy | degraded | unhealthy.

Record HealthReport := {
  status : HealthStatus;
  details : PoolStatus;
  errors : option (list string);
}.

Definition push_if (b : bool) (msg : string) (errs : list string) : list string :=
  if b then errs ++ [msg] else errs.

Definition staticErrors (w : World) : list string :=
  let st := getStatus w in
  push_if (total st <? waiting st) "High wait queue"
    (push_if (total st =? 0) "No connections in pool"
       (push_if (negb (initialized w)) "Pool not initialized" [])).

Definition classify (errs : list string) : HealthStatus :=
  if length errs =? 0 then healthy
  else if length errs <=? 2 then degraded
  else unhealthy.

(** The error list of a report ([errors] is [undefined] when empty). *)
Definition reported (r : HealthReport) : list string := default [] (errors r).

Definition healthCheck (wait : World -> World)
    (query : Client -> World -> Completion unit * World) (w : World)
  : option (Completion HealthReport) * World :=
  let st := getStatus w in
  let errs := staticErrors w in
  match execute wait query w with
  | (None, w1) => (None, w1)
  | (Some r, w1) =>
      let errs :=
        match r with
        | Normal _ => errs
        | Throw _ => errs ++ ["Connection test failed"%string]
        end in
      (Some (Normal {| status := classify errs;
                       details := st;
                       errors := if 0 <? length errs then Some errs else None |}),
       w1)
  end.

(** ** The pool over time

    An event is one uninterrupted run of pool code on the event loop.  A
    caller is named by the promise its [acquire] call returned; [released]
    records the callers that have given their handle back.  [execute] is
    an [EAcquire] followed, once the operation has completed, by the
    [ERelease] of the same caller. *)

Inductive Event :=
| EInitialize
| EAcquire
| ERelease (caller : PromiseId) (c : Client)
| EAdvance (ms : Z)
| ETimer (p : PromiseId)
| ECleanupTick
| EJob
| EResize (newSize : Z)
| EClose.

Record Sys := {
  world : World;
  released : gset PromiseId;
}.

Definition holds (s : Sys) (p : PromiseId) (c : Client) : Prop :=
  promises (world s) !! p = Some (Fulfilled c) ∧ p ∉ released s.

Definition holdsb (s : Sys) (p : PromiseId) (c : Client) : bool :=
  bool_decide (promises (world s) !! p = Some (Fulfilled c))
  && bool_decide (p ∉ released s).

Definition step (env : Env) (e : Event) (s : Sys) : Sys :=
  match e with
  | EInitialize =>
      {| world := snd (initialize env (world s)); released := released s |}
  | EAcquire =>
      {| world := snd (acquire (world s)); released := released s |}
  | ERelease p c =>
      {| world := snd (release c (world s));
         released := if holdsb s p c then {[p]} ∪ released s else released s |}
  | EAdvance ms =>
      {| world := with_clock (world s) (clock (world s) + ms)%Z;
         released := released s |}
  | ETimer p =>
      {| world := fireTimer p (world s); released := released s |}
  | ECleanupTick =>
      {| world := cleanupTick (world s); released := released s |}
  | EJob =>
      {| world := runJob env (world s); released := released s |}
  | EResize n =>
      {| world := snd (resize env n (world s)); released := released s |}
  | EClose =>
      {| world := snd (close env (world s)); released := released s |}
  end.

Definition run (env : Env) (trace : list Event) (s : Sys) : Sys :=
  fold_left (λ acc e, step env e acc) trace s.

(** A caller is well behaved when it releases only the handle it holds. *)
Definition permitted (s : Sys) (e : Event) : bool :=
  match e with
  | ERelease p c => holdsb s p c
  | _ => true
  end.

Fixpoint wellBehaved (env : Env) (trace : list Event) (s : Sys) : bool :=
  match trace with
  | [] => true
  | e :: rest => permitted s e && wellBehaved env rest (step env e s)
  end.

Definition boot (cfg : ConnectionPoolConfig) : Sys :=
  {| world := constructor cfg; released := ∅ |}.

(** Environments and configurations used in the worked examples. *)
Definition reliable : Env :=
  {| connectFails := λ _, false; disconnectFails := λ _, false |}.

Definition stuckDisconnect : Env :=
  {| connectFails := λ _, false; disconnectFails := λ _, true |}.

Definition poolOf (n : Z) : ConnectionPoolConfig :=
  {| size := n; databaseUrl := "postgresql://localhost/test";
     timeout := Some (Num 5000); idleTimeout := Some (Num 30000) |}.

(** A freshly initialized pool of [n] connections. *)
Definition freshPool (n : Z) : World :=
  world (run reliable [EInitialize] (boot (poolOf n))).

Definition onePool : World := freshPool 1.

(** An operation that throws, and a probe query that fails. *)
Definition failingOp (c : Client) (w : World) : Completion nat * World :=
  (Throw (MkError "Query failed"), w).

Definition failingQuery (c : Client) (w : World) : Completion unit * World :=
  (Throw (MkError "SELECT 1 failed"), w).

Definition workingQuery (c : Client) (w : World) : Completion unit * World :=
  (Normal tt, w).

(** The record [release] finds for a handle, pool.ts:117. *)
Definition recordOf (c : Client) (w : World) : option (nat * PoolConnection) :=
  list_find (λ conn, client conn = c) (connections w).

(** A handle nobody has checked out: the pool does not track it, or its
    record is idle and no waiter is queued. *)
Definition notCheckedOut (c : Client) (w : World) : Prop :=
  match recordOf c w with
  | None => True
  | Some (_, connection) => inUse connection = false ∧ waitQueue w = []
  end.

Definition unknownWarning : LogEntry :=
  ConsoleWarn "Attempted to release unknown connection".

(** The pool of one connection after one acquire and the matching release. *)
Definition releasedOnce : World :=
  world (run reliable [EInitialize; EAcquire; ERelease 0 0] (boot (poolOf 1))).

(** ** Invariants of the reachable states *)

(** A queue entry as [acquire] builds it: its [resolve] is the wrapper of
    pool.ts:100, not the executor's [resolve]. *)
Definition wrapped (item : Waiter) : Prop :=
  ∃ q, resolve item = WaiterResolve q.

(** Records carry distinct clients, all of them already drawn. *)
Definition ConnsOK (w : World) : Prop :=
  NoDup (client <$> connections w)
  ∧ ∀ conn, conn ∈ connections w -> client conn < nextClient w.

(** [quiet w w']: going from [w] to [w'] fulfilled no promise, created no
    promise, and added only records with newly drawn clients. *)
Record quiet (w w' : World) : Prop := {
  quiet_nextClient : nextClient w ≤ nextClient w';
  quiet_nextPromise : nextPromise w ≤ nextPromise w';
  quiet_fulfilled : ∀ p c,
    promises w' !! p = Some (Fulfilled c) ↔ promises w !! p = Some (Fulfilled c);
  quiet_dom : ∀ p,
    is_Some (promises w' !! p) -> is_Some (promises w !! p) ∨ p < nextPromise w';
  quiet_conns : ∀ conn,
    conn ∈ connections w' -> conn ∈ connections w ∨ nextClient w ≤ client conn;
  quiet_ok : ConnsOK w -> ConnsOK w';
  quiet_queue : Forall wrapped (waitQueue w) -> Forall wrapped (waitQueue w');
  quiet_settled : ∀ p st,
    promises w !! p = Some st -> st ≠ Pending -> promises w' !! p = Some st;
}.

(** Every promise in the store was created by an earlier [acquire]. *)
Definition DomOK (w : World) : Prop :=
  ∀ p, is_Some (promises w !! p) -> p < nextPromise w.

Record Inv (s : Sys) : Prop := {
  inv_conns : ConnsOK (world s);
  inv_fulfilled : ∀ p c,
    promises (world s) !! p = Some (Fulfilled c) -> c < nextClient (world s);
  inv_dom : ∀ p, is_Some (promises (world s) !! p) -> p < nextPromise (world s);
  inv_released : ∀ p,
    p ∈ released s -> ∃ c, promises (world s) !! p = Some (Fulfilled c);
  inv_exclusive : ∀ p1 p2 c, holds s p1 c -> holds s p2 c -> p1 = p2;
  inv_busy : ∀ p c conn,
    holds s p c -> conn ∈ connections (world s) -> client conn = c ->
    inUse conn = true;
}.

(** ** Worked traces *)

(** One caller releases twice; a second and a third caller acquire in
    between and after. *)
Definition doubleReleaseTrace : list Event :=
  [EInitialize; EAcquire; ERelease 0 0; EAcquire; ERelease 0 0; EAcquire].

(** Callers that release what they hold, with a hand-off, a resize, a
    cleanup pass and a close. *)
Definition orderlyTrace : list Event :=
  [EInitialize; EAcquire; EAcquire; ERelease 0 0; ERelease 1 0;
   EResize 2; EAcquire; EAdvance 40000; ECleanupTick; EJob; ERelease 2 0;
   EClose].

(** A pool of one connection: caller 0 holds it, caller 1 queues and its
    timer expires after the configured 5000 ms. *)
Definition timedOutTrace : list Event :=
  [EInitialize; EAcquire; EAcquire; EAdvance 5000; ETimer 1].

(** After that expiry a third caller queues and caller 0 releases. *)
Definition starvedTrace : list Event :=
  timedOutTrace ++ [EAcquire; ERelease 0 0].

Definition afterTrace (n : Z) (trace : list Event) : Sys :=
  run reliable trace (boot (poolOf n)).

(** A freshly initialized pool whose connections have all been idle for
    longer than the idle timeout of 30000 ms. *)
Definition idlePool (n : Z) : World :=
  world (afterTrace n [EInitialize; EAdvance 30001]).

(** The test the cleanup callback applies to one record, pool.ts:201-204. *)
Definition expired (now limit : Z) (connection : PoolConnection) : bool :=
  negb (inUse connection) && (limit <? now - lastUsed connection)%Z.

(** The floor test of pool.ts:206. *)
Definition aboveFloor (w : World) : bool :=
  (size (config w) / 2 <? Z.of_nat (length (connections w)))%Z.

(** ** Further inputs for the worked examples *)

(** The promise a [reject] function settles. *)
Definition rejectTarget (f : RejectFn) : PromiseId :=
  match f with
  | ExecutorReject p => p
  | WaiterReject p => p
  end.

(** A database that refuses the connection of client [n] only. *)
Definition failsAt (n : Client) : Env :=
  {| connectFails := λ c, bool_decide (c = n); disconnectFails := λ _, false |}.

(** A pool of three connections of which the first is checked out. *)
Definition oneBusyOfThree : World :=
  world (afterTrace 3 [EInitialize; EAcquire]).

(** A pool of one connection, checked out, with two callers queued. *)
Definition twoQueued : World :=
  world (afterTrace 1 [EInitialize; EAcquire; EAcquire; EAcquire]).

(** While the caller is suspended, time passes and its timer fires. *)
Definition waitForTimeout (p : PromiseId) (w : World) : World :=
  fireTimer p (with_clock w (clock w + 5000)%Z).

(** A pool of one connection, checked out, nobody queued. *)
Definition exhaustedPool : World :=
  world (afterTrace 1 [EInitialize; EAcquire]).

(** A pool of three connections, the first checked out, all three last
    used longer ago than the idle timeout. *)
Definition staleWithOneBusy : World :=
  world (afterTrace 3 [EInitialize; EAcquire; EAdvance 30001]).

(** The queue entry [acquire] builds for promise [p] at time [t]. *)
Definition entryOf (p : PromiseId) (t : Z) : Waiter :=
  {| resolve := WaiterResolve p; reject := WaiterReject p; timestamp := t |}.

(** An operation that leaves the pool alone. *)
Definition pureOp (c : Client) (w : World) : Completion nat * World :=
  (Normal c, w).

(** * Helpers of the same source file

    A JavaScript string is its sequence of UTF-16 code units, here a list
    of numbers.  Counts and indices are integers. *)

Abbreviation JsString := (list N) (only parsing).

(** [s.repeat(count)]: a [RangeError] for a negative count. *)
Definition js_repeat (s : JsString) (count : Z) : Completion JsString :=
  if (count <? 0)%Z then Throw (MkError "RangeError: Invalid count value")
  else Normal (concat (replicate (Z.to_nat count) s)).

(** [s.slice(start)]: a negative [start] counts from the end, and both
    ends are clamped to the string. *)
Definition js_slice (s : JsString) (start : Z) : JsString :=
  let len := Z.of_nat (length s) in
  let from := if (start <? 0)%Z then Z.max (len + start) 0 else Z.min start len in
  drop (Z.to_nat from) s.

(** ** CryptoUtils.mask, pool.ts:619-628 *)

Definition mask (data : JsString) (visibleChars : Z) (maskChar : JsString)
  : Completion JsString :=
  if (Z.of_nat (length data) <=? visibleChars)%Z then Normal data
  else
    match js_repeat maskChar (Z.of_nat (length data) - visibleChars) with
    | Normal masked => Normal (masked ++ js_slice data (- visibleChars))
    | Throw e => Throw e
    end.

(** ** Logger.parseSize, pool.ts:784-801 *)

Definition isDigit (c : N) : bool := ((48 <=? c) && (c <=? 57))%N.

(** [parseInt] on a string of decimal digits. *)
Definition parseInt (digits : JsString) : Z :=
  fold_left (λ acc c, 10 * acc + (Z.of_N c - 48))%Z digits 0%Z.

(** [toLowerCase] on the letters the pattern can capture. *)
Definition toLowerCase (c : N) : N :=
  if ((65 <=? c) && (c <=? 90))%N then (c + 32)%N else c.

(** The table [units] of pool.ts:785-790, keyed by the code unit of
    [b], [k], [m], [g]. *)
Definition units (c : N) : option Z :=
  if (c =? 98)%N then Some 1%Z
  else if (c =? 107)%N then Some 1024%Z
  else if (c =? 109)%N then Some (1024 * 1024)%Z
  else if (c =? 103)%N then Some (1024 * 1024 * 1024)%Z
  else None.

(** The longest prefix of digits and what follows it: what the greedy
    [\d+] consumes.  The unit class holds no digit, so giving digits
    back never helps the match. *)
Fixpoint spanDigits (s : JsString) : JsString * JsString :=
  match s with
  | [] => ([], [])
  | c :: rest =>
      if isDigit c
      then let '(ds, tl) := spanDigits rest in (c :: ds, tl)
      else ([], s)
  end.

(** [size.match(/^(\d+)([bkmg]?)$/i)]: the two captures, or no match. *)
Definition matchSize (size : JsString) : option (JsString * JsString) :=
  match spanDigits size with
  | ([], _) => None
  | (ds, []) => Some (ds, [])
  | (ds, [u]) =>
      match units (toLowerCase u) with
      | Some _ => Some (ds, [u])
      | None => None
      end
  | (_, _ :: _ :: _) => None
  end.

Definition parseSize (size : JsString) : Z :=
  match matchSize size with
  | None => (10 * 1024 * 1024)%Z
  | Some (m1, m2) =>
      let value := parseInt m1 in
      let unit := toLowerCase <$> (match m2 with [] => [98%N] | _ => m2 end) in
      (value * match unit with
               | [u] => default 1%Z (units u)
               | _ => 1%Z
               end)%Z
  end.

(** ["1234567890"], ["10m"], ["10MB"] and ["*"] as code units. *)
Definition tenDigits : JsString := [49; 50; 51; 52; 53; 54; 55; 56; 57; 48]%N.
Definition tenM : JsString := [49; 48; 109]%N.
Definition tenMB : JsString := [49; 48; 77; 66]%N.
Definition star : N := 42%N.

(** * Properties *)

(** ** Construction *)

(** C10.  The constructor replaces a falsy [timeout] ([undefined], [0],
    [NaN]) by 30000 and a falsy [idleTimeout] by 60000 and keeps any other
    value; in particular a configured [0] is overridden, and no
    configuration yields an effective timeout or idle timeout of [0]. *)
Theorem constructor_overrides_falsy_timeouts (cfg : ConnectionPoolConfig) :
  timeout (config (constructor cfg))
    = (if falsy (timeout cfg) then Some (Num 30000) else timeout cfg)
  ∧ idleTimeout (config (constructor cfg))
    = (if falsy (idleTimeout cfg) then Some (Num 60000) else idleTimeout cfg)
  ∧ timeout (config (constructor cfg)) ≠ Some (Num 0)
  ∧ idleTimeout (config (constructor cfg)) ≠ Some (Num 0).
Proof.
  destruct cfg as [sz url t it]; cbn.
  repeat split.
  - destruct t as [[z|]|]; cbn; try reflexivity.
    destruct (Z.eqb_spec z 0); reflexivity.
  - destruct it as [[z|]|]; cbn; try reflexivity.
    destruct (Z.eqb_spec z 0); reflexivity.
  - destruct t as [[z|]|]; cbn; try discriminate.
    destruct (Z.eqb_spec z 0); congruence.
  - destruct it as [[z|]|]; cbn; try discriminate.
    destruct (Z.eqb_spec z 0); congruence.
Qed.

Example constructor_zero_timeout :
  config (constructor {| size := 5; databaseUrl := "db";
                         timeout := Some (Num 0); idleTimeout := Some (Num 0) |})
  = {| size := 5; databaseUrl := "db";
       timeout := Some (Num 30000); idleTimeout := Some (Num 60000) |}.
Proof. reflexivity. Qed.

(** ** release never throws *)

Lemma release_returns (c : Client) (w : World) : fst (release c w) = Normal tt.
Proof.
  unfold release.
  destruct (list_find _ _) as [[i connection]|]; [|reflexivity].
  cbn. destruct (waitQueue w); reflexivity.
Qed.

(** ** execute *)

(** C9.  Once [acquire] has delivered a client, [execute] runs [fn] on it
    and then [release] on the same client, whatever [fn]'s completion:
    the completion of [execute] is that of [fn] (its value, or the error it
    threw) and the world it leaves is the one [release] produced from the
    world [fn] left. *)
Theorem execute_releases_on_every_path {T : Type} (wait : World -> World)
    (fn : Client -> World -> Completion T * World) (w w2 : World) (c : Client) :
  await_acquire wait (fst (acquire w)) (snd (acquire w)) = (Some (Normal c), w2) ->
  execute wait fn w
    = (Some (fst (fn c w2)), snd (release c (snd (fn c w2))))
  ∧ fst (release c (snd (fn c w2))) = Normal tt.
Proof.
  intros Hacq. split; [|apply release_returns].
  unfold execute. destruct (acquire w) as [p w1]. cbn in Hacq. rewrite Hacq.
  unfold try_finally. destruct (fn c w2) as [r w3]. cbn.
  pose proof (release_returns c w3) as Hr.
  destruct (release c w3) as [[u|e] w4]; cbn in *; [reflexivity|discriminate].
Qed.

(** X18.  When the acquisition fails (timeout, or the pool closing) there is no
    client: [fn] is not run and the error is the one [acquire] gave. *)
Lemma execute_acquire_failed {T : Type} (wait : World -> World)
    (fn : Client -> World -> Completion T * World) (w w2 : World) (e : Error) :
  await_acquire wait (fst (acquire w)) (snd (acquire w)) = (Some (Throw e), w2) ->
  execute wait fn w = (Some (Throw e), w2).
Proof.
  intros Hacq. unfold execute. destruct (acquire w) as [p w1].
  cbn in Hacq. by rewrite Hacq.
Qed.

Lemma execute_releases_on_every_path_witness :
  execute id failingOp onePool
    = (Some (fst (failingOp 0 (snd (acquire onePool)))),
       snd (release 0 (snd (failingOp 0 (snd (acquire onePool))))))
  ∧ fst (release 0 (snd (failingOp 0 (snd (acquire onePool))))) = Normal tt.
Proof.
  apply (execute_releases_on_every_path id failingOp onePool).
  vm_compute. reflexivity.
Defined.

(** The two tests of "Execute with Auto-Release": nothing stays checked
    out, on success and on error. *)
Example execute_success_active_zero :
  let '(r, w) := execute id (λ _ w, (Normal 7, w)) onePool in
  r = Some (Normal 7) ∧ active (getStatus w) = 0.
Proof. vm_compute. split; reflexivity. Qed.

Example execute_error_active_zero :
  let '(r, w) := execute id failingOp onePool in
  r = Some (Throw (MkError "Query failed")) ∧ active (getStatus w) = 0.
Proof. vm_compute. split; reflexivity. Qed.

(** ** healthCheck *)

Lemma staticErrors_length (w : World) : length (staticErrors w) ≤ 3.
Proof.
  unfold staticErrors, push_if.
  repeat match goal with |- context [if ?b then _ else _] => destruct b end;
    cbn; lia.
Qed.

Lemma classify_spec (errs : list string) :
  (classify errs = healthy ↔ length errs = 0)
  ∧ (classify errs = degraded ↔ 1 ≤ length errs ≤ 2)
  ∧ (classify errs = unhealthy ↔ 3 ≤ length errs).
Proof.
  unfold classify.
  destruct (Nat.eqb_spec (length errs) 0) as [H0|H0];
    [|destruct (Nat.leb_spec (length errs) 2) as [H2|H2]];
    repeat split; intros; try discriminate; try reflexivity; try lia.
Qed.

(** C7 (as the code has it).  [healthCheck] never throws and returns
    whenever the probe's [execute] does.  The report lists the errors found
    among "not initialized", "no connections", "wait queue longer than the
    pool" and "probe failed"; the status is [healthy] exactly for an empty
    list, [degraded] exactly for one or two errors and [unhealthy] exactly
    for three or four.  A failed probe is one error among the four. *)
Theorem healthCheck_classification (wait : World -> World)
    (query : Client -> World -> Completion unit * World) (w : World) :
  match fst (healthCheck wait query w), fst (execute wait query w) with
  | Some (Normal r), Some probe =>
      reported r
        = staticErrors w ++
          match probe with
          | Normal _ => []
          | Throw _ => ["Connection test failed"%string]
          end
      ∧ details r = getStatus w
      ∧ length (reported r) ≤ 4
      ∧ (status r = healthy ↔ length (reported r) = 0)
      ∧ (status r = degraded ↔ 1 ≤ length (reported r) ≤ 2)
      ∧ (status r = unhealthy ↔ 3 ≤ length (reported r))
  | None, None => True
  | _, _ => False
  end.
Proof.
  unfold healthCheck.
  destruct (execute wait query w) as [[probe|] w1]; [|exact I].
  pose proof (staticErrors_length w) as Hlen.
  assert (Hrep : ∀ errs : list string,
             default [] (if 0 <? length errs then Some errs else None) = errs).
  { intros [|x errs]; reflexivity. }
  destruct probe as [u|e]; unfold reported, fst, errors, status, details;
    rewrite Hrep.
  - pose proof (classify_spec (staticErrors w)) as (Hh & Hd & Hu).
    rewrite app_nil_r. repeat split; try tauto; try lia; apply Hd.
  - pose proof (classify_spec (staticErrors w ++ ["Connection test failed"%string]))
      as (Hh & Hd & Hu).
    repeat split; try tauto; try apply Hd.
    rewrite length_app. cbn. lia.
Qed.

(** C7 (as stated) fails: on an initialized pool with one idle connection
    whose probe query fails, the only error is the probe's and the status
    is [degraded], not [unhealthy]. *)
Lemma healthCheck_failed_probe_is_degraded :
  fst (execute id failingQuery onePool) = Some (Throw (MkError "SELECT 1 failed"))
  ∧ fst (healthCheck id failingQuery onePool)
    = Some (Normal {| status := degraded;
                      details := {| total := 1; active := 0; idle := 1; waiting := 0 |};
                      errors := Some ["Connection test failed"%string] |}).
Proof. split; vm_compute; reflexivity. Qed.

Example healthCheck_healthy :
  fst (healthCheck id workingQuery onePool)
  = Some (Normal {| status := healthy;
                    details := {| total := 1; active := 0; idle := 1; waiting := 0 |};
                    errors := None |}).
Proof. vm_compute. reflexivity. Qed.

(** ** Counting records *)

Section Counting.
Context {A : Type} (P : A -> Prop) `{!∀ x, Decision (P x)}.

Lemma filter_length_insert (l : list A) (i : nat) (x y : A) :
  l !! i = Some x -> (P x ↔ P y) ->
  length (filter P (<[i := y]> l)) = length (filter P l).
Proof.
  revert i. induction l as [|a l IH]; intros [|i] Hi Hxy; try done.
  - injection Hi as ->.
    change (<[0 := y]> (x :: l)) with (y :: l).
    rewrite !filter_cons.
    destruct (decide (P y)), (decide (P x)); simpl; tauto || reflexivity.
  - change (<[S i := y]> (a :: l)) with (a :: <[i := y]> l).
    change ((a :: l) !! S i) with (l !! i) in Hi.
    rewrite !filter_cons.
    destruct (decide (P a)); simpl; by rewrite (IH i).
Qed.

Lemma filter_delete_false (l : list A) (i : nat) (x : A) :
  l !! i = Some x -> ¬ P x -> filter P (delete i l) = filter P l.
Proof.
  revert i. induction l as [|a l IH]; intros [|i] Hi Hx; try done.
  - injection Hi as ->.
    change (delete 0 (x :: l)) with l. by rewrite filter_cons_False.
  - change (delete (S i) (a :: l)) with (a :: delete i l).
    change ((a :: l) !! S i) with (l !! i) in Hi.
    rewrite !filter_cons.
    destruct (decide (P a)); simpl; by rewrite (IH i).
Qed.

Lemma filter_length_insert_true (l : list A) (i : nat) (y : A) :
  P y -> length (filter P l) ≤ length (filter P (<[i := y]> l)).
Proof.
  intros Hy. revert i. induction l as [|a l IH]; intros [|i];
    [simpl; lia|simpl; lia|..].
  - change (<[0 := y]> (a :: l)) with (y :: l).
    rewrite !filter_cons. destruct (decide (P y)); [|done].
    destruct (decide (P a)); simpl; lia.
  - change (<[S i := y]> (a :: l)) with (a :: <[i := y]> l).
    rewrite !filter_cons. specialize (IH i).
    destruct (decide (P a)); simpl; lia.
Qed.
End Counting.

(** ** release on a handle that is not checked out *)

(** C8 (as the code has it).  [release] on a handle the pool does not track
    logs the warning, does not throw and leaves [getStatus] unchanged.
    [release] on a tracked handle whose record is already idle, with no
    waiter queued, does not throw, leaves [getStatus] unchanged and logs
    nothing. *)
Theorem release_not_checked_out (c : Client) (w : World) :
  notCheckedOut c w ->
  fst (release c w) = Normal tt
  ∧ getStatus (snd (release c w)) = getStatus w
  ∧ console (snd (release c w))
    = match recordOf c w with
      | None => console w ++ [unknownWarning]
      | Some _ => console w
      end.
Proof.
  intros Hnot. split; [apply release_returns|].
  unfold notCheckedOut, recordOf in *. unfold release.
  destruct (list_find _ _) as [[i connection]|] eqn:Hfind; [|done].
  destruct Hnot as [Hidle Hqueue]. cbn. rewrite Hqueue. cbn.
  apply list_find_Some in Hfind as (Hi & _ & _).
  split; [|reflexivity].
  unfold getStatus; cbn. rewrite length_insert. f_equal.
  - apply (filter_length_insert _ _ _ connection); [done|].
    cbn. rewrite Hidle. done.
  - apply (filter_length_insert _ _ _ connection); [done|].
    cbn. by rewrite Hidle.
Qed.

Lemma release_not_checked_out_witness :
  fst (release 0 releasedOnce) = Normal tt
  ∧ getStatus (snd (release 0 releasedOnce)) = getStatus releasedOnce
  ∧ console (snd (release 0 releasedOnce))
    = match recordOf 0 releasedOnce with
      | None => console releasedOnce ++ [unknownWarning]
      | Some _ => console releasedOnce
      end.
Proof.
  apply (release_not_checked_out 0 releasedOnce).
  vm_compute. split; reflexivity.
Defined.

(** C8 (as stated) fails: the second [release] of a handle that was
    acquired and released once finds its record (pool.ts:117), so the
    warning of pool.ts:120 is not logged. *)
Lemma double_release_logs_no_warning :
  recordOf 0 releasedOnce
    = Some (0, {| client := 0; inUse := false; lastUsed := 0; createdAt := 0 |})
  ∧ unknownWarning ∉ console (snd (release 0 releasedOnce)).
Proof.
  split; [vm_compute; reflexivity|].
  vm_compute. intros H. apply list_elem_of_In in H. cbn in H.
  destruct H as [H|[]]. discriminate H.
Qed.

Example release_unknown_handle_warns :
  console (snd (release 42 onePool)) = console onePool ++ [unknownWarning]
  ∧ getStatus (snd (release 42 onePool)) = getStatus onePool.
Proof. split; vm_compute; reflexivity. Qed.

(** ** Footprints of the operations *)

Lemma quiet_refl (w : World) : quiet w w.
Proof. split; auto. Qed.

Lemma quiet_trans (w1 w2 w3 : World) : quiet w1 w2 -> quiet w2 w3 -> quiet w1 w3.
Proof.
  intros [Hc1 Hp1 Hf1 Hd1 Hn1 Ho1 Hq1 Hs1] [Hc2 Hp2 Hf2 Hd2 Hn2 Ho2 Hq2 Hs2].
  split; auto; try lia.
  - intros p c. by rewrite Hf2.
  - intros p H. destruct (Hd2 p H) as [H'|H']; [|by right].
    destruct (Hd1 p H') as [H''|H'']; [by left|right; lia].
  - intros conn Hin. destruct (Hn2 conn Hin) as [H|H]; [auto|right; lia].
Qed.

Lemma ConnsOK_sublist (l l' : list PoolConnection) (n : nat) :
  l' `sublist_of` l ->
  NoDup (client <$> l) ∧ (∀ conn, conn ∈ l -> client conn < n) ->
  NoDup (client <$> l') ∧ (∀ conn, conn ∈ l' -> client conn < n).
Proof.
  intros Hsub [Hnd Hlt]. split.
  - eapply sublist_NoDup; [exact Hnd|by apply fmap_sublist].
  - intros conn Hin. apply Hlt. eapply elem_of_sublist; eauto.
Qed.

Lemma wrapped_sublist (q q' : list Waiter) :
  q' `sublist_of` q -> Forall wrapped q -> Forall wrapped q'.
Proof.
  rewrite !Forall_forall. intros Hsub H item Hin.
  apply H. eapply elem_of_sublist; eauto.
Qed.

(** Nothing but removals of records and of queue entries. *)
Lemma quiet_frame (w w' : World) :
  connections w' `sublist_of` connections w ->
  waitQueue w' `sublist_of` waitQueue w ->
  promises w' = promises w ->
  nextClient w' = nextClient w ->
  nextPromise w' = nextPromise w ->
  quiet w w'.
Proof.
  intros Hc Hq Hp Hnc Hnp. split.
  - lia.
  - lia.
  - intros p c. by rewrite Hp.
  - intros p. rewrite Hp. by left.
  - intros conn Hin. left. eapply elem_of_sublist; eauto.
  - unfold ConnsOK. rewrite Hnc. by apply ConnsOK_sublist.
  - by apply wrapped_sublist.
  - intros p st. by rewrite Hp.
Qed.

Lemma log_quiet (entry : LogEntry) (w : World) : quiet w (log entry w).
Proof. by apply quiet_frame. Qed.

Lemma settle_rejected_quiet (p : PromiseId) (e : Error) (w : World) :
  quiet w (settle p (Rejected e) w).
Proof.
  unfold settle.
  destruct (promises w !! p) as [[| |]|] eqn:Hp; try apply quiet_refl.
  split; cbn; auto.
  - intros q c. destruct (decide (p = q)) as [->|Hne].
    + rewrite lookup_insert_eq, Hp. split; discriminate.
    + by rewrite lookup_insert_ne.
  - intros q Hq. left. destruct (decide (p = q)) as [->|Hne].
    + eexists. exact Hp.
    + by rewrite lookup_insert_ne in Hq.
  - intros q st Hq Hst. destruct (decide (p = q)) as [->|Hne].
    + congruence.
    + by rewrite lookup_insert_ne.
Qed.

Lemma clearTimeout_quiet (p : PromiseId) (w : World) : quiet w (clearTimeout p w).
Proof. by apply quiet_frame. Qed.

Lemma call_reject_quiet (f : RejectFn) (e : Error) (w : World) :
  quiet w (call_reject f e w).
Proof.
  destruct f as [p|p]; cbn.
  - apply settle_rejected_quiet.
  - eapply quiet_trans; [apply clearTimeout_quiet|apply settle_rejected_quiet].
Qed.

Lemma rejectAll_quiet (e : Error) (queue : list Waiter) (w : World) :
  quiet w (rejectAll e queue w).
Proof.
  unfold rejectAll. revert w.
  induction queue as [|waiter queue IH]; intros w; cbn; [apply quiet_refl|].
  eapply quiet_trans; [apply call_reject_quiet|apply IH].
Qed.

Lemma onTimeout_quiet (p : PromiseId) (w : World) : quiet w (onTimeout p w).
Proof.
  unfold onTimeout.
  eapply quiet_trans; [|apply call_reject_quiet].
  destruct (list_find _ _) as [[index item]|]; [|apply quiet_refl].
  apply quiet_frame; try done. apply sublist_delete.
Qed.

Lemma fireTimer_quiet (p : PromiseId) (w : World) : quiet w (fireTimer p w).
Proof.
  unfold fireTimer. destruct (timers w !! p) as [due|]; [|apply quiet_refl].
  destruct (due <=? clock w)%Z; [|apply quiet_refl].
  eapply quiet_trans; [|apply onTimeout_quiet]. by apply quiet_frame.
Qed.

Lemma removeConnection_resume_quiet (env : Env) (connection : PoolConnection)
    (w : World) :
  quiet w (removeConnection_resume env connection w).
Proof.
  unfold removeConnection_resume.
  destruct (disconnectFails env _); [apply log_quiet|].
  destruct (indexOf _ _) as [index|]; [|apply quiet_refl].
  apply quiet_frame; try done. apply sublist_delete.
Qed.

Lemma runJob_quiet (env : Env) (w : World) : quiet w (runJob env w).
Proof.
  unfold runJob. destruct (jobs w) as [|connection rest]; [apply quiet_refl|].
  eapply quiet_trans; [|apply removeConnection_resume_quiet]. by apply quiet_frame.
Qed.

Lemma for_of_quiet {L : Type} (body : PoolConnection -> L * World -> L * World) :
  (∀ connection s, quiet (snd s) (snd (body connection s))) ->
  ∀ fuel index s, quiet (snd s) (snd (for_of fuel index body s)).
Proof.
  intros Hbody fuel. induction fuel as [|fuel IH]; intros index s; cbn;
    [apply quiet_refl|].
  destruct (connections (snd s) !! index) as [connection|]; [|apply quiet_refl].
  eapply quiet_trans; [apply Hbody|apply IH].
Qed.

Lemma cleanup_body_quiet (now limit : Z) (connection : PoolConnection)
    (s : unit * World) :
  quiet (snd s) (snd (cleanup_body now limit connection s)).
Proof.
  unfold cleanup_body.
  repeat match goal with |- context [if ?b then _ else _] => destruct b end;
    try apply quiet_refl.
  by apply quiet_frame.
Qed.

Lemma cleanupTick_quiet (w : World) : quiet w (cleanupTick w).
Proof.
  unfold cleanupTick.
  apply (for_of_quiet (cleanup_body _ _) (cleanup_body_quiet _ _) _ 0 (tt, w)).
Qed.

Lemma shrink_body_quiet (env : Env) (toRemove : nat)
    (connection : PoolConnection) (s : nat * World) :
  quiet (snd s) (snd (shrink_body env toRemove connection s)).
Proof.
  unfold shrink_body. destruct s as [removed w].
  destruct (negb (inUse connection) && (removed <? toRemove));
    [apply removeConnection_resume_quiet|apply quiet_refl].
Qed.

Lemma createConnection_quiet (env : Env) (w : World) :
  quiet w (snd (createConnection env w)).
Proof.
  unfold createConnection. destruct (connectFails env _); cbn.
  - eapply quiet_trans; [|apply log_quiet].
    split; cbn; auto. intros [Hnd Hlt]. split; cbn; [done|].
    intros conn Hin. specialize (Hlt conn Hin). lia.
  - split; cbn; auto.
    + intros conn [Hin| ->%list_elem_of_singleton]%elem_of_app; [by left|].
      right. cbn. lia.
    + intros [Hnd Hlt]. split; cbn.
      * rewrite fmap_app. apply NoDup_app. split_and!; [done| |].
        -- intros c (conn & -> & Hin)%list_elem_of_fmap.
           intros Heq%list_elem_of_singleton. specialize (Hlt conn Hin).
           cbn in Heq. lia.
        -- cbn. apply NoDup_singleton.
      * intros conn [Hin| ->%list_elem_of_singleton]%elem_of_app.
        -- specialize (Hlt conn Hin). lia.
        -- cbn. lia.
Qed.

Lemma createConnections_quiet (env : Env) (n : nat) (w : World) :
  quiet w (snd (createConnections env n w)).
Proof.
  revert w. induction n as [|n IH]; intros w; cbn; [apply quiet_refl|].
  pose proof (createConnection_quiet env w) as H1.
  destruct (createConnection env w) as [[u|e] w1]; cbn in *; [|done].
  eapply quiet_trans; [exact H1|apply IH].
Qed.

Lemma set_size_quiet (n : Z) (w : World) : quiet w (set_size n w).
Proof. by apply quiet_frame. Qed.

Lemma resize_done_quiet (n : Z) (w : World) : quiet w (snd (resize_done n w)).
Proof.
  cbn. eapply quiet_trans; [apply set_size_quiet|apply log_quiet].
Qed.

Lemma resize_quiet (env : Env) (newSize : Z) (w : World) :
  quiet w (snd (resize env newSize w)).
Proof.
  unfold resize.
  destruct (_ <? newSize)%Z.
  - pose proof (createConnections_quiet env
                  (Z.to_nat (newSize - Z.of_nat (length (connections w)))) w) as H1.
    destruct (createConnections _ _ _) as [[u|e] w1]; cbn in *; [|done].
    eapply quiet_trans; [exact H1|apply resize_done_quiet].
  - destruct (newSize <? _)%Z; [|apply resize_done_quiet].
    pose proof (for_of_quiet _
                  (shrink_body_quiet env
                     (Z.to_nat (Z.of_nat (length (connections w)) - newSize)))
                  (length (connections w)) 0 (0, w)) as H1.
    destruct (for_of _ _ _ _) as [removed w1]; cbn in *.
    eapply quiet_trans; [exact H1|].
    eapply quiet_trans; [apply set_size_quiet|apply log_quiet].
Qed.

Lemma initialize_quiet (env : Env) (w : World) :
  quiet w (snd (initialize env w)).
Proof.
  unfold initialize. destruct (initialized w); [apply quiet_refl|].
  pose proof (createConnections_quiet env (Z.to_nat (size (config w))) w) as H1.
  destruct (createConnections _ _ _) as [[u|e] w1]; cbn in *.
  - eapply quiet_trans; [exact H1|].
    eapply quiet_trans; [|apply log_quiet]. by apply quiet_frame.
  - eapply quiet_trans; [exact H1|apply log_quiet].
Qed.

Lemma close_quiet (env : Env) (w : World) : quiet w (snd (close env w)).
Proof.
  unfold close.
  assert (Hq : quiet w (with_waitQueue (rejectAll PoolClosingError (waitQueue w) w) [])).
  { eapply quiet_trans; [apply rejectAll_quiet|].
    apply quiet_frame; cbn; [reflexivity|apply sublist_nil_l|done..]. }
  destruct (existsb _ _); cbn; [exact Hq|].
  eapply quiet_trans; [exact Hq|].
  eapply quiet_trans; [|apply log_quiet].
  apply quiet_frame; cbn; [apply sublist_nil_l|reflexivity|done..].
Qed.

(** ** The invariant along a trace *)

Lemma Inv_quiet (s : Sys) (w' : World) :
  Inv s -> quiet (world s) w' ->
  Inv {| world := w'; released := released s |}.
Proof.
  intros [Hok Hful Hdom Hrel Hex Hbusy] [Hc Hp Hf Hd Hn Ho Hq _].
  assert (Hholds : ∀ p c, holds {| world := w'; released := released s |} p c
                          -> holds s p c).
  { intros p c [H1 H2]. split; [by apply Hf|done]. }
  split; cbn.
  - auto.
  - intros p c H%Hf. specialize (Hful p c H). lia.
  - intros p [H|H]%Hd; [|done]. specialize (Hdom p H). lia.
  - intros p H. destruct (Hrel p H) as [c Hc']. exists c. by apply Hf.
  - intros p1 p2 c H1%Hholds H2%Hholds. eauto.
  - intros p c conn H%Hholds Hin Hcl.
    destruct (Hn conn Hin) as [Hold|Hnew]; [eauto|].
    destruct H as [H _]. specialize (Hful p c H). lia.
Qed.

Lemma boot_Inv (cfg : ConnectionPoolConfig) : Inv (boot cfg).
Proof.
  assert (Hp : promises (world (boot cfg)) = ∅) by reflexivity.
  assert (Hc : connections (world (boot cfg)) = []) by reflexivity.
  assert (Hr : released (boot cfg) = ∅) by reflexivity.
  split; unfold holds, ConnsOK; rewrite ?Hp, ?Hc, ?Hr.
  - split; [apply NoDup_nil_2|]. intros conn H. by apply elem_of_nil in H.
  - intros p c H. by rewrite lookup_empty in H.
  - intros p [x H]. by rewrite lookup_empty in H.
  - intros p H. by apply elem_of_empty in H.
  - intros p1 p2 c [H _]. by rewrite lookup_empty in H.
  - intros p c conn [H _]. by rewrite lookup_empty in H.
Qed.

Lemma insert_same_client (l : list PoolConnection) (i : nat)
    (connection x' : PoolConnection) :
  l !! i = Some connection -> client x' = client connection ->
  client <$> <[i := x']> l = client <$> l.
Proof.
  intros Hi Hcl. rewrite list_fmap_insert, Hcl.
  apply list_insert_id. by rewrite list_lookup_fmap, Hi.
Qed.

Lemma same_client_same_index (l : list PoolConnection) (i j : nat)
    (a b : PoolConnection) :
  NoDup (client <$> l) -> l !! i = Some a -> l !! j = Some b ->
  client a = client b -> i = j.
Proof.
  intros Hnd Hi Hj Hab.
  apply (NoDup_lookup (client <$> l) i j (client a)); [done| |].
  - by rewrite list_lookup_fmap, Hi.
  - by rewrite list_lookup_fmap, Hj, Hab.
Qed.

Lemma alter_as_insert {A : Type} (f : A -> A) (l : list A) (i : nat) (x : A) :
  l !! i = Some x -> alter f i l = <[i := f x]> l.
Proof.
  revert i. induction l as [|a l IH]; intros [|i] Hi; try done.
  - by injection Hi as ->.
  - change (alter f (S i) (a :: l)) with (a :: alter f i l).
    change (<[S i := f x]> (a :: l)) with (a :: <[i := f x]> l).
    f_equal. by apply IH.
Qed.

Lemma ConnsOK_insert (w w' : World) (i : nat) (connection x' : PoolConnection) :
  ConnsOK w -> connections w !! i = Some connection ->
  client x' = client connection ->
  connections w' = <[i := x']> (connections w) ->
  nextClient w' = nextClient w ->
  ConnsOK w'.
Proof.
  intros [Hnd Hlt] Hi Hcl Hconns Hnc. unfold ConnsOK. rewrite Hconns, Hnc.
  split; [by rewrite (insert_same_client _ _ connection)|].
  intros conn (j & Hj)%list_elem_of_lookup.
  apply list_lookup_insert_Some in Hj as [(_ & <- & _)|(_ & Hj)].
  - rewrite Hcl. apply Hlt. by eapply list_elem_of_lookup_2.
  - apply Hlt. by eapply list_elem_of_lookup_2.
Qed.

(** Handing an idle record out: the record becomes busy and at most one
    promise, not yet fulfilled, is fulfilled with its client. *)
Lemma Inv_checkout (s : Sys) (w' : World) (i : nat)
    (connection x' : PoolConnection) (target : option PromiseId) :
  Inv s ->
  connections (world s) !! i = Some connection ->
  inUse connection = false ->
  client x' = client connection ->
  inUse x' = true ->
  connections w' = <[i := x']> (connections (world s)) ->
  nextClient w' = nextClient (world s) ->
  nextPromise (world s) ≤ nextPromise w' ->
  match target with
  | Some q =>
      promises w' = <[q := Fulfilled (client connection)]> (promises (world s))
      ∧ (promises (world s) !! q = None ∨ promises (world s) !! q = Some Pending)
      ∧ q < nextPromise w'
  | None =>
      (∀ p c, promises w' !! p = Some (Fulfilled c)
              ↔ promises (world s) !! p = Some (Fulfilled c))
      ∧ (∀ p, is_Some (promises w' !! p) -> p < nextPromise w')
  end ->
  Inv {| world := w'; released := released s |}.
Proof.
  intros HInv Hi Hidle Hcl Hbusy' Hconns Hnc Hnp Htarget.
  pose proof HInv as [Hok Hful Hdom Hrel Hex Hbusy].
  assert (Hin : connection ∈ connections (world s))
    by (by eapply list_elem_of_lookup_2).
  assert (Hfree : ∀ r, ¬ holds s r (client connection)).
  { intros r Hr. specialize (Hbusy r _ connection Hr Hin eq_refl). congruence. }
  assert (Hlookup : ∀ j conn, connections w' !! j = Some conn ->
            (j = i ∧ conn = x') ∨ (j ≠ i ∧ connections (world s) !! j = Some conn)).
  { intros j conn Hj. rewrite Hconns in Hj.
    apply list_lookup_insert_Some in Hj as [(-> & <- & _)|(Hne & Hj)]; auto. }
  assert (Hok' : ConnsOK w') by (by eapply ConnsOK_insert).
  destruct target as [q|].
  - destruct Htarget as (Hp & Hq & Hqlt).
    assert (Hqrel : q ∉ released s).
    { intros [c Hc]%Hrel. destruct Hq as [Hq|Hq]; congruence. }
    assert (Hholds : ∀ r c, holds {| world := w'; released := released s |} r c ->
              (r = q ∧ c = client connection) ∨ (r ≠ q ∧ holds s r c)).
    { intros r c [H1 H2]. cbn in *. rewrite Hp in H1.
      destruct (decide (q = r)) as [->|Hne].
      - rewrite lookup_insert_eq in H1. left. split; congruence.
      - rewrite lookup_insert_ne in H1 by done. right. repeat split; auto. }
    split; cbn.
    + exact Hok'.
    + intros p c. rewrite Hp, Hnc. destruct (decide (q = p)) as [->|Hne].
      * rewrite lookup_insert_eq. intros [= <-]. destruct Hok as [_ Hlt]. auto.
      * rewrite lookup_insert_ne by done. apply Hful.
    + intros p. rewrite Hp. destruct (decide (q = p)) as [->|Hne]; [done|].
      rewrite lookup_insert_ne by done. intros H%Hdom. lia.
    + intros p Hprel. rewrite Hp. destruct (decide (q = p)) as [->|Hne]; [done|].
      rewrite lookup_insert_ne by done. auto.
    + intros p1 p2 c [(-> & ->)|(Hn1 & H1)]%Hholds [(-> & Hc)|(Hn2 & H2)]%Hholds;
        try done.
      * by destruct (Hfree p2).
      * subst c. by destruct (Hfree p1).
      * eauto.
    + intros p c conn [(-> & ->)|(Hn1 & H1)]%Hholds
        (j & [(-> & ->)|(Hji & Hj)]%Hlookup)%list_elem_of_lookup Hclient; try done.
      * destruct Hok as [Hnd _].
        destruct Hji. by apply (same_client_same_index _ _ _ conn connection Hnd).
      * eapply Hbusy; eauto. by eapply list_elem_of_lookup_2.
  - destruct Htarget as (Hp & Hd).
    assert (Hholds : ∀ r c, holds {| world := w'; released := released s |} r c ->
              holds s r c).
    { intros r c [H1 H2]. split; [by apply Hp|done]. }
    split; cbn.
    + exact Hok'.
    + intros p c H%Hp. rewrite Hnc. eauto.
    + exact Hd.
    + intros p [c Hc]%Hrel. exists c. by apply Hp.
    + intros p1 p2 c H1%Hholds H2%Hholds. eauto.
    + intros p c conn H%Hholds
        (j & [(-> & ->)|(Hji & Hj)]%Hlookup)%list_elem_of_lookup Hclient; [done|].
      eapply Hbusy; eauto. by eapply list_elem_of_lookup_2.
Qed.

(** Giving a handle back: the caller is recorded as having released, and
    at most the record of that client is rewritten. *)
Lemma Inv_checkin (s : Sys) (w' : World) (p : PromiseId) (c : Client) :
  Inv s -> holds s p c ->
  promises w' = promises (world s) ->
  nextClient w' = nextClient (world s) ->
  nextPromise w' = nextPromise (world s) ->
  (connections w' = connections (world s)
   ∨ ∃ i connection x',
       connections (world s) !! i = Some connection
       ∧ client connection = c ∧ client x' = c
       ∧ connections w' = <[i := x']> (connections (world s))) ->
  Inv {| world := w'; released := {[p]} ∪ released s |}.
Proof.
  intros HInv Hp Hprom Hnc Hnp Hconns.
  pose proof HInv as [Hok Hful Hdom Hrel Hex Hbusy].
  assert (Hholds : ∀ r c', holds {| world := w'; released := {[p]} ∪ released s |} r c'
                    -> holds s r c' ∧ r ≠ p).
  { intros r c' [H1 H2]. cbn in *. rewrite Hprom in H1.
    rewrite not_elem_of_union, not_elem_of_singleton in H2.
    destruct H2 as [H2 H3]. by repeat split. }
  split; cbn.
  - destruct Hconns as [Heq|(i & connection & x' & Hi & Hc1 & Hc2 & Heq)].
    + unfold ConnsOK. by rewrite Heq, Hnc.
    + apply (ConnsOK_insert (world s) w' i connection x');
        [done|done|congruence|done|done].
  - rewrite Hprom, Hnc. exact Hful.
  - rewrite Hprom, Hnp. exact Hdom.
  - rewrite Hprom. intros r [->%elem_of_singleton|Hr]%elem_of_union; [|auto].
    destruct Hp as [Hp _]. eauto.
  - intros p1 p2 c' [H1 _]%Hholds [H2 _]%Hholds. eauto.
  - intros r c' conn [Hr Hne]%Hholds Hin Hclient.
    destruct Hconns as [Heq|(i & connection & x' & Hi & Hc1 & Hc2 & Heq)].
    + rewrite Heq in Hin. eauto.
    + rewrite Heq in Hin. apply list_elem_of_lookup in Hin as [j Hj].
      apply list_lookup_insert_Some in Hj as [(_ & <- & _)|(_ & Hj)].
      * destruct Hne. apply (Hex r p c); [|done]. by rewrite <- Hc2, Hclient.
      * eapply Hbusy; eauto. by eapply list_elem_of_lookup_2.
Qed.

Lemma holdsb_holds (s : Sys) (p : PromiseId) (c : Client) :
  holdsb s p c = true ↔ holds s p c.
Proof.
  unfold holdsb, holds.
  rewrite andb_true_iff, !bool_decide_eq_true. done.
Qed.

Lemma acquire_Inv (s : Sys) :
  Inv s -> Inv {| world := snd (acquire (world s)); released := released s |}.
Proof.
  intros HInv. pose proof HInv as [Hok Hful Hdom Hrel Hex Hbusy].
  assert (Hfresh : promises (world s) !! nextPromise (world s) = None).
  { destruct (promises (world s) !! nextPromise (world s)) eqn:E; [|done].
    assert (is_Some (promises (world s) !! nextPromise (world s))) as H%Hdom
      by eauto. lia. }
  unfold acquire.
  destruct (list_find _ _) as [[i connection]|] eqn:Hfind; cbn.
  - apply list_find_Some in Hfind as (Hi & Hidle & _).
    apply (Inv_checkout s _ i connection
             (mark_acquired (clock (world s)) connection)
             (Some (nextPromise (world s)))); cbn; try done.
    + lia.
    + split_and!; [done|by left|lia].
  - apply Inv_quiet; [done|]. split; cbn; auto.
    + intros p c. destruct (decide (nextPromise (world s) = p)) as [<-|Hne].
      * rewrite lookup_insert_eq, Hfresh. split; discriminate.
      * by rewrite lookup_insert_ne.
    + intros p Hp. destruct (decide (nextPromise (world s) = p)) as [<-|Hne].
      * right. lia.
      * left. by rewrite lookup_insert_ne in Hp.
    + intros Hq. apply Forall_app. split; [done|].
      apply Forall_singleton. by eexists.
    + intros p st Hp Hst.
      destruct (decide (nextPromise (world s) = p)) as [<-|Hne]; [congruence|].
      by rewrite lookup_insert_ne.
Qed.

(** What a [resolve] callback does to the promise store. *)
Lemma call_resolve_footprint (f : ResolveFn) (c : Client) (w : World) :
  connections (call_resolve f c w) = connections w
  ∧ waitQueue (call_resolve f c w) = waitQueue w
  ∧ nextClient (call_resolve f c w) = nextClient w
  ∧ nextPromise (call_resolve f c w) = nextPromise w
  ∧ promises (call_resolve f c w)
    = match promises w !! target f with
      | Some Pending => <[target f := Fulfilled c]> (promises w)
      | _ => promises w
      end.
Proof.
  destruct f as [p|p]; cbn; unfold settle; cbn;
    destruct (promises w !! p) as [[| |]|]; cbn; done.
Qed.

Lemma release_Inv (s : Sys) (p : PromiseId) (c : Client) :
  Inv s -> holds s p c ->
  Inv {| world := snd (release c (world s)); released := {[p]} ∪ released s |}.
Proof.
  intros HInv Hp. unfold release.
  destruct (list_find _ _) as [[i connection]|] eqn:Hfind.
  2:{ cbn. apply Inv_checkin with (c := c); auto. }
  apply list_find_Some in Hfind as (Hi & Hcl & _).
  set (idleRecord := mark_released (clock (world s)) connection).
  set (w1 := with_connections (world s) (<[i := idleRecord]> (connections (world s)))).
  assert (HInv1 : Inv {| world := w1; released := {[p]} ∪ released s |}).
  { apply Inv_checkin with (c := c); auto.
    right. exists i, connection, idleRecord. by repeat split. }
  change (waitQueue w1) with (waitQueue (world s)).
  destruct (waitQueue (world s)) as [|waiter rest]; [exact HInv1|].
  assert (Hi1 : connections w1 !! i = Some idleRecord).
  { cbn. apply list_lookup_insert_eq. by eapply lookup_lt_Some. }
  cbn [snd].
  set (w3 := with_connections (with_waitQueue w1 rest)
               (alter (set_inUse true) i (connections (with_waitQueue w1 rest)))).
  pose proof (call_resolve_footprint (resolve waiter) c w3)
    as (Hfc & _ & Hfn & Hfp & Hfprom).
  pose proof HInv1 as [_ _ Hdom1 _ _ _]. cbn in Hdom1.
  change (Inv {| world := call_resolve (resolve waiter) c w3;
                 released := released {| world := w1;
                                         released := {[p]} ∪ released s |} |}).
  destruct (promises w3 !! target (resolve waiter)) as [[| |]|] eqn:Hq.
  - apply (Inv_checkout {| world := w1; released := {[p]} ∪ released s |}
             (call_resolve (resolve waiter) c w3) i
             idleRecord (set_inUse true idleRecord)
             (Some (target (resolve waiter)))); cbn; try done.
    + rewrite Hfc. cbn. by apply alter_as_insert.
    + by rewrite Hfp.
    + rewrite Hfprom, Hfp. split_and!; [by rewrite Hcl|by right|].
      apply Hdom1. eauto.
  - apply (Inv_checkout {| world := w1; released := {[p]} ∪ released s |}
             (call_resolve (resolve waiter) c w3) i
             idleRecord (set_inUse true idleRecord) None); cbn; try done.
    + rewrite Hfc. cbn. by apply alter_as_insert.
    + by rewrite Hfp.
    + rewrite Hfprom, Hfp. split; [done|exact Hdom1].
  - apply (Inv_checkout {| world := w1; released := {[p]} ∪ released s |}
             (call_resolve (resolve waiter) c w3) i
             idleRecord (set_inUse true idleRecord) None); cbn; try done.
    + rewrite Hfc. cbn. by apply alter_as_insert.
    + by rewrite Hfp.
    + rewrite Hfprom, Hfp. split; [done|exact Hdom1].
  - apply (Inv_checkout {| world := w1; released := {[p]} ∪ released s |}
             (call_resolve (resolve waiter) c w3) i
             idleRecord (set_inUse true idleRecord) None); cbn; try done.
    + rewrite Hfc. cbn. by apply alter_as_insert.
    + by rewrite Hfp.
    + rewrite Hfprom, Hfp. split; [done|exact Hdom1].
Qed.

Lemma step_Inv (env : Env) (e : Event) (s : Sys) :
  Inv s -> permitted s e = true -> Inv (step env e s).
Proof.
  intros HInv Hperm. destruct e; cbn [step].
  - apply Inv_quiet; [done|apply initialize_quiet].
  - by apply acquire_Inv.
  - cbn in Hperm. rewrite Hperm. apply release_Inv; [done|].
    by apply holdsb_holds.
  - apply Inv_quiet; [done|]. by apply quiet_frame.
  - apply Inv_quiet; [done|apply fireTimer_quiet].
  - apply Inv_quiet; [done|apply cleanupTick_quiet].
  - apply Inv_quiet; [done|apply runJob_quiet].
  - apply Inv_quiet; [done|apply resize_quiet].
  - apply Inv_quiet; [done|apply close_quiet].
Qed.

Lemma run_Inv (env : Env) (trace : list Event) (s : Sys) :
  Inv s -> wellBehaved env trace s = true -> Inv (run env trace s).
Proof.
  revert s. induction trace as [|e trace IH]; intros s HInv Hwb; [done|].
  cbn in Hwb. apply andb_true_iff in Hwb as [Hperm Hwb].
  cbn. apply IH; [by apply step_Inv|done].
Qed.

(** ** Exclusive ownership *)

(** C1 (as the code has it).  Along every sequence of pool events in which
    a handle is released only by the caller that holds it, no handle is
    held by two callers at once, and a record whose handle is held is
    marked in use: an idle record is held by nobody. *)
Theorem exclusive_ownership (env : Env) (cfg : ConnectionPoolConfig)
    (trace : list Event) :
  wellBehaved env trace (boot cfg) = true ->
  let s := run env trace (boot cfg) in
  (∀ p1 p2 c, holds s p1 c -> holds s p2 c -> p1 = p2)
  ∧ (∀ p c conn,
       holds s p c -> conn ∈ connections (world s) -> client conn = c ->
       inUse conn = true).
Proof.
  intros Hwb s.
  destruct (run_Inv env trace (boot cfg) (boot_Inv cfg) Hwb)
    as [_ _ _ _ Hex Hbusy].
  split; [exact Hex|exact Hbusy].
Qed.

Lemma exclusive_ownership_witness :
  let s := run reliable orderlyTrace (boot (poolOf 1)) in
  (∀ p1 p2 c, holds s p1 c -> holds s p2 c -> p1 = p2)
  ∧ (∀ p c conn,
       holds s p c -> conn ∈ connections (world s) -> client conn = c ->
       inUse conn = true).
Proof.
  apply (exclusive_ownership reliable (poolOf 1) orderlyTrace).
  vm_compute. reflexivity.
Defined.

(** C1 (as stated) fails for arbitrary sequences: [release] takes no
    caller, so when caller 0 releases its handle a second time while
    caller 1 holds it, the record is idle again and the next [acquire]
    hands it to caller 2 as well. *)
Lemma double_release_shares_handle :
  let s := run reliable doubleReleaseTrace (boot (poolOf 1)) in
  holds s 1 0 ∧ holds s 2 0.
Proof.
  cbv zeta. split; apply holdsb_holds; vm_compute; reflexivity.
Qed.

(** ** Timer expiry *)

Lemma onTimeout_keeps_queue (p : PromiseId) (w : World) :
  Forall wrapped (waitQueue w) -> waitQueue (onTimeout p w) = waitQueue w.
Proof.
  intros Hq. unfold onTimeout.
  destruct (list_find _ _) as [[index item]|] eqn:Hfind.
  - apply list_find_Some in Hfind as (Hitem & Hres & _).
    apply list_elem_of_lookup_2 in Hitem.
    rewrite Forall_forall in Hq. destruct (Hq item Hitem) as [q Hw].
    congruence.
  - cbn. unfold settle. by destruct (promises w !! p) as [[| |]|].
Qed.

Lemma release_queue_wrapped (c : Client) (w : World) :
  Forall wrapped (waitQueue w) -> Forall wrapped (waitQueue (snd (release c w))).
Proof.
  intros Hq. unfold release.
  destruct (list_find _ _) as [[i connection]|]; [|exact Hq].
  cbn. destruct (waitQueue w) as [|waiter rest] eqn:E; cbn; [by rewrite E|].
  destruct (call_resolve_footprint (resolve waiter) c
              (with_connections
                 (with_waitQueue
                    (with_connections w
                       (<[i:=mark_released (clock w) connection]> (connections w)))
                    rest)
                 (alter (set_inUse true) i
                    (<[i:=mark_released (clock w) connection]> (connections w)))))
    as (_ & -> & _). cbn. by apply Forall_inv_tail in Hq.
Qed.

Lemma acquire_queue_wrapped (w : World) :
  Forall wrapped (waitQueue w) -> Forall wrapped (waitQueue (snd (acquire w))).
Proof.
  intros Hq. unfold acquire.
  destruct (list_find _ _) as [[i connection]|]; cbn; [done|].
  apply Forall_app. split; [done|]. apply Forall_singleton. by eexists.
Qed.

Lemma step_queue_wrapped (env : Env) (e : Event) (s : Sys) :
  Forall wrapped (waitQueue (world s)) ->
  Forall wrapped (waitQueue (world (step env e s))).
Proof.
  intros Hq. destruct e; cbn [step world].
  - by apply initialize_quiet.
  - by apply acquire_queue_wrapped.
  - by apply release_queue_wrapped.
  - done.
  - by apply fireTimer_quiet.
  - by apply cleanupTick_quiet.
  - by apply runJob_quiet.
  - by apply resize_quiet.
  - by apply close_quiet.
Qed.

Lemma reachable_queue_wrapped (env : Env) (cfg : ConnectionPoolConfig)
    (trace : list Event) :
  Forall wrapped (waitQueue (world (run env trace (boot cfg)))).
Proof.
  unfold run. generalize (boot cfg), (Forall_nil_2 wrapped : Forall wrapped
                                        (waitQueue (world (boot cfg)))).
  induction trace as [|e trace IH]; intros s Hq; [done|].
  cbn. apply IH. by apply step_queue_wrapped.
Qed.

(** In every reachable state the timer callback leaves the wait queue as
    it is: the search of pool.ts:90 compares each entry's wrapper with the
    executor's [resolve] and never finds one. *)
Lemma expiry_never_dequeues (env : Env) (cfg : ConnectionPoolConfig)
    (trace : list Event) (p : PromiseId) :
  waitQueue (onTimeout p (world (run env trace (boot cfg))))
  = waitQueue (world (run env trace (boot cfg))).
Proof. apply onTimeout_keeps_queue, reachable_queue_wrapped. Qed.

(** ** A promise settles once *)

Lemma quiet_DomOK (w w' : World) : quiet w w' -> DomOK w -> DomOK w'.
Proof.
  intros [_ Hnp _ Hd _ _ _ _] Hdom p [H|H]%Hd; [|done].
  specialize (Hdom p H). lia.
Qed.

Lemma acquire_promises (w : World) :
  DomOK w ->
  DomOK (snd (acquire w))
  ∧ ∀ p st, promises w !! p = Some st -> promises (snd (acquire w)) !! p = Some st.
Proof.
  intros Hdom.
  assert (Hfresh : promises w !! nextPromise w = None).
  { destruct (promises w !! nextPromise w) eqn:E; [|done].
    assert (is_Some (promises w !! nextPromise w)) as H%Hdom by eauto. lia. }
  unfold acquire, DomOK.
  destruct (list_find _ _) as [[i connection]|]; cbn; split.
  - intros p. destruct (decide (nextPromise w = p)) as [<-|Hne]; [lia|].
    rewrite lookup_insert_ne by done. intros H%Hdom. lia.
  - intros p st Hp. destruct (decide (nextPromise w = p)) as [<-|Hne];
      [congruence|]. by rewrite lookup_insert_ne.
  - intros p. destruct (decide (nextPromise w = p)) as [<-|Hne]; [lia|].
    rewrite lookup_insert_ne by done. intros H%Hdom. lia.
  - intros p st Hp. destruct (decide (nextPromise w = p)) as [<-|Hne];
      [congruence|]. by rewrite lookup_insert_ne.
Qed.

Lemma release_promises (c : Client) (w : World) :
  DomOK w ->
  DomOK (snd (release c w))
  ∧ ∀ p st, promises w !! p = Some st -> st ≠ Pending ->
            promises (snd (release c w)) !! p = Some st.
Proof.
  intros Hdom. unfold release.
  destruct (list_find _ _) as [[i connection]|]; [|done].
  cbn. destruct (waitQueue w) as [|waiter rest]; [done|]. cbn [snd].
  match goal with |- context [call_resolve ?f ?c ?w0] =>
    destruct (call_resolve_footprint f c w0) as (_ & _ & _ & Hnp & Hprom);
    set (w3 := w0) in *
  end.
  change (promises w3) with (promises w) in Hprom.
  change (nextPromise w3) with (nextPromise w) in Hnp.
  unfold DomOK. rewrite Hnp, Hprom.
  destruct (promises w !! target (resolve waiter)) as [[| |]|] eqn:Hq;
    try done.
  split.
  - intros p. destruct (decide (target (resolve waiter) = p)) as [<-|Hne].
    + intros _. apply Hdom. eauto.
    + rewrite lookup_insert_ne by done. apply Hdom.
  - intros p st Hp Hst.
    destruct (decide (target (resolve waiter) = p)) as [<-|Hne];
      [congruence|]. by rewrite lookup_insert_ne.
Qed.

Lemma step_promises (env : Env) (e : Event) (s : Sys) :
  DomOK (world s) ->
  DomOK (world (step env e s))
  ∧ ∀ p st, promises (world s) !! p = Some st -> st ≠ Pending ->
            promises (world (step env e s)) !! p = Some st.
Proof.
  intros Hdom.
  assert (Hquiet : ∀ w', quiet (world s) w' ->
            DomOK w'
            ∧ ∀ p st, promises (world s) !! p = Some st -> st ≠ Pending ->
                      promises w' !! p = Some st).
  { intros w' Hq. split; [by eapply quiet_DomOK|by destruct Hq]. }
  destruct e; cbn [step world].
  - apply Hquiet, initialize_quiet.
  - destruct (acquire_promises _ Hdom) as [H1 H2]. split; [done|auto].
  - by apply release_promises.
  - apply Hquiet. by apply quiet_frame.
  - apply Hquiet, fireTimer_quiet.
  - apply Hquiet, cleanupTick_quiet.
  - apply Hquiet, runJob_quiet.
  - apply Hquiet, resize_quiet.
  - apply Hquiet, close_quiet.
Qed.

(** Once a promise returned by [acquire] is fulfilled or rejected it stays
    so, whatever happens next: an acquisition that timed out is never
    fulfilled later, and one that was fulfilled never times out. *)
Lemma settled_forever (env : Env) (trace : list Event) (s : Sys)
    (p : PromiseId) (st : PromiseState) :
  DomOK (world s) ->
  promises (world s) !! p = Some st -> st ≠ Pending ->
  promises (world (run env trace s)) !! p = Some st.
Proof.
  revert s. induction trace as [|e trace IH]; intros s Hdom Hp Hst; [done|].
  cbn. destruct (step_promises env e s Hdom) as [Hdom' Hkeep].
  apply IH; auto.
Qed.

(** C2 on the code: caller 1's timer expires, its promise is rejected with
    the timeout error, and its entry is still in the wait queue. *)
Theorem expired_waiter_stays_queued :
  let s := afterTrace 1 timedOutTrace in
  promises (world s) !! 1 = Some (Rejected AcquireTimeoutError)
  ∧ waitQueue (world s)
    = [{| resolve := WaiterResolve 1; reject := WaiterReject 1; timestamp := 0 |}]
  ∧ waiting (getStatus (world s)) = 1.
Proof. cbv zeta. split_and!; vm_compute; reflexivity. Qed.

(** ** Hand-off on release *)

(** [acquire] with no idle record queues its caller behind every earlier
    one. *)
Lemma acquire_enqueues_last (w : World) :
  list_find (λ conn, inUse conn = false) (connections w) = None ->
  waitQueue (snd (acquire w))
  = waitQueue w ++
    [{| resolve := WaiterResolve (nextPromise w);
        reject := WaiterReject (nextPromise w);
        timestamp := clock w |}]
  ∧ promises (snd (acquire w)) !! nextPromise w = Some Pending.
Proof.
  intros Hnone. unfold acquire. rewrite Hnone. cbn.
  split; [done|apply lookup_insert_eq].
Qed.

(** X12.  [release] of a tracked handle with a non-empty queue takes the head of
    the queue and calls its [resolve] with the handle: the record ends in
    use, [active] does not decrease, the rest of the queue keeps its
    order, and the head's promise, if still pending, is fulfilled with the
    released client; no other promise changes. *)
Lemma release_hands_to_head (c : Client) (w : World) (i : nat)
    (connection : PoolConnection) (waiter : Waiter) (rest : list Waiter) :
  recordOf c w = Some (i, connection) ->
  waitQueue w = waiter :: rest ->
  waitQueue (snd (release c w)) = rest
  ∧ connections (snd (release c w))
    = <[i := set_inUse true (mark_released (clock w) connection)]> (connections w)
  ∧ active (getStatus w) ≤ active (getStatus (snd (release c w)))
  ∧ (promises w !! target (resolve waiter) = Some Pending ->
     promises (snd (release c w)) !! target (resolve waiter) = Some (Fulfilled c))
  ∧ (∀ q, q ≠ target (resolve waiter) ->
          promises (snd (release c w)) !! q = promises w !! q).
Proof.
  intros Hrec Hqueue. unfold recordOf in Hrec. unfold release.
  rewrite Hrec. cbn [with_connections waitQueue]. rewrite Hqueue. cbn [snd].
  match goal with |- context [call_resolve ?f ?c ?w0] =>
    destruct (call_resolve_footprint f c w0) as (Hc & Hq & _ & _ & Hprom);
    set (w3 := w0) in *
  end.
  change (promises w3) with (promises w) in Hprom.
  apply list_find_Some in Hrec as (Hi & _ & _).
  assert (Hconns : connections w3
            = <[i := set_inUse true (mark_released (clock w) connection)]>
                (connections w)).
  { subst w3. cbn.
    rewrite (alter_as_insert _ _ _ (mark_released (clock w) connection)).
    - by rewrite list_insert_insert_eq.
    - apply list_lookup_insert_eq. by eapply lookup_lt_Some. }
  split_and!.
  - by rewrite Hq.
  - by rewrite Hc.
  - unfold getStatus. cbn [active]. rewrite Hc, Hconns.
    by apply filter_length_insert_true.
  - intros Hpend. rewrite Hprom, Hpend. apply lookup_insert_eq.
  - intros q Hne. rewrite Hprom.
    destruct (promises w !! target (resolve waiter)) as [[| |]|]; try done.
    by rewrite lookup_insert_ne.
Qed.

(** C3 on the code: with the expired entry of caller 1 at the head of the
    queue and caller 2 waiting behind it, the release by caller 0 takes
    the expired entry.  Caller 2 stays pending and queued, the record is
    marked in use, and no caller holds it. *)
Theorem release_serves_expired_waiter :
  let s := afterTrace 1 starvedTrace in
  promises (world s) !! 1 = Some (Rejected AcquireTimeoutError)
  ∧ promises (world s) !! 2 = Some Pending
  ∧ waitQueue (world s)
    = [{| resolve := WaiterResolve 2; reject := WaiterReject 2; timestamp := 5000 |}]
  ∧ connections (world s)
    = [{| client := 0; inUse := true; lastUsed := 5000; createdAt := 0 |}]
  ∧ holdsb s 0 0 = false ∧ holdsb s 1 0 = false ∧ holdsb s 2 0 = false.
Proof. cbv zeta. split_and!; vm_compute; reflexivity. Qed.

(** ** The [for...of] loops run to the end of the array

    [for_of] is given the length of the array as fuel.  A body that never
    lengthens the array lets the iterator reach the end within that many
    steps, so more fuel changes nothing. *)

Lemma for_of_exhausted {L : Type} (fuel index : nat)
    (body : PoolConnection -> L * World -> L * World) (s : L * World) :
  length (connections (snd s)) ≤ index ->
  for_of fuel index body s = s.
Proof.
  intros Hlen. destruct fuel as [|fuel]; [done|]. cbn.
  by rewrite (lookup_ge_None_2 _ _ Hlen).
Qed.

Lemma for_of_enough_fuel {L : Type}
    (body : PoolConnection -> L * World -> L * World) :
  (∀ connection s,
     length (connections (snd (body connection s)))
     ≤ length (connections (snd s))) ->
  ∀ fuel extra index s,
    length (connections (snd s)) ≤ index + fuel ->
    for_of (fuel + extra) index body s = for_of fuel index body s.
Proof.
  intros Hbody fuel. induction fuel as [|fuel IH]; intros extra index s Hlen.
  - rewrite !for_of_exhausted; [done|lia|lia].
  - cbn. destruct (connections (snd s) !! index) as [connection|]; [|done].
    apply IH. specialize (Hbody connection s). lia.
Qed.

Lemma for_of_invariant {L : Type} (J : L * World -> Prop)
    (body : PoolConnection -> L * World -> L * World) :
  (∀ connection s,
     J s -> connection ∈ connections (snd s) -> J (body connection s)) ->
  ∀ fuel index s, J s -> J (for_of fuel index body s).
Proof.
  intros Hbody fuel. induction fuel as [|fuel IH]; intros index s HJ; [done|].
  cbn. destruct (connections (snd s) !! index) as [connection|] eqn:Hi; [|done].
  apply IH, Hbody; [done|]. by eapply list_elem_of_lookup_2.
Qed.

Lemma removeConnection_resume_length (env : Env) (connection : PoolConnection)
    (w : World) :
  length (connections (removeConnection_resume env connection w))
  ≤ length (connections w).
Proof.
  unfold removeConnection_resume.
  destruct (disconnectFails env _); [done|].
  destruct (indexOf _ _) as [index|]; [|done].
  cbn. apply sublist_length, sublist_delete.
Qed.

Lemma shrink_loop_fuel (env : Env) (toRemove extra : nat) (w : World) :
  for_of (length (connections w) + extra) 0 (shrink_body env toRemove) (0, w)
  = for_of (length (connections w)) 0 (shrink_body env toRemove) (0, w).
Proof.
  apply for_of_enough_fuel; [|cbn; lia].
  intros connection [removed w0]. unfold shrink_body.
  destruct (negb (inUse connection) && (removed <? toRemove)); [|done].
  apply removeConnection_resume_length.
Qed.

Lemma cleanup_body_connections (now limit : Z) (connection : PoolConnection)
    (s : unit * World) :
  connections (snd (cleanup_body now limit connection s)) = connections (snd s).
Proof.
  unfold cleanup_body.
  repeat match goal with |- context [if ?b then _ else _] => destruct b end;
    done.
Qed.

Lemma cleanup_loop_fuel (now limit : Z) (extra : nat) (w : World) :
  for_of (length (connections w) + extra) 0 (cleanup_body now limit) (tt, w)
  = for_of (length (connections w)) 0 (cleanup_body now limit) (tt, w).
Proof.
  apply for_of_enough_fuel; [|cbn; lia].
  intros connection s. by rewrite cleanup_body_connections.
Qed.

(** ** What one firing of the cleanup callback does *)

Lemma with_jobs_same (w : World) : with_jobs w (jobs w) = w.
Proof. by destruct w. Qed.

Lemma cleanup_body_expired (now limit : Z) (x : PoolConnection) (w : World) :
  cleanup_body now limit x (tt, w)
  = if expired now limit x && aboveFloor w
    then (tt, removeConnection_unawaited x w)
    else (tt, w).
Proof.
  unfold cleanup_body, expired, aboveFloor. cbn [snd].
  destruct (inUse x); cbn [negb andb]; [done|].
  destruct (limit <? now - lastUsed x)%Z; cbn [andb]; [|done].
  by destruct (_ <? _)%Z.
Qed.

Lemma cleanup_loop_spec (now limit : Z) (fuel index : nat) (w : World) :
  length (connections w) ≤ index + fuel ->
  snd (for_of fuel index (cleanup_body now limit) (tt, w))
  = if aboveFloor w
    then with_jobs w
           (jobs w ++ filter (λ conn, expired now limit conn = true)
                        (drop index (connections w)))
    else w.
Proof.
  revert index w. induction fuel as [|fuel IH]; intros index w Hlen.
  - cbn. rewrite drop_ge by lia. rewrite filter_nil, app_nil_r, with_jobs_same.
    by destruct (aboveFloor w).
  - cbn [for_of snd]. destruct (connections w !! index) as [x|] eqn:Hx.
    2:{ apply lookup_ge_None in Hx. rewrite drop_ge by lia.
        rewrite filter_nil, app_nil_r, with_jobs_same.
        by destruct (aboveFloor w). }
    rewrite (drop_S _ _ _ Hx), cleanup_body_expired.
    destruct (expired now limit x) eqn:Hexp; cbn [andb].
    + rewrite filter_cons_True by done.
      destruct (aboveFloor w) eqn:Hfloor.
      * rewrite IH by (cbn; lia).
        unfold aboveFloor in *. cbn. rewrite Hfloor.
        unfold with_jobs. cbn. by rewrite <- app_assoc.
      * rewrite IH by lia. by rewrite Hfloor.
    + rewrite filter_cons_False by (by rewrite Hexp). apply IH. lia.
Qed.

(** The callback queues the removal of every idle record past the idle
    timeout when the pool is above the floor as it starts, and of none
    otherwise; it removes nothing itself. *)
Lemma cleanupTick_all_or_nothing (w : World) :
  cleanupTick w
  = if aboveFloor w
    then with_jobs w
           (jobs w ++
            filter (λ conn, expired (clock w)
                              (or_default (idleTimeout (config w)) 60000) conn
                            = true)
              (connections w))
    else w.
Proof. unfold cleanupTick. rewrite cleanup_loop_spec; [done|lia]. Qed.

Lemma cleanupTick_queues_only_expired (w : World) (connection : PoolConnection) :
  connection ∈ jobs (cleanupTick w) ->
  connection ∈ jobs w
  ∨ (connection ∈ connections w
     ∧ inUse connection = false
     ∧ (or_default (idleTimeout (config w)) 60000
        < clock w - lastUsed connection)%Z).
Proof.
  rewrite cleanupTick_all_or_nothing.
  destruct (aboveFloor w); [|by left]. cbn.
  intros [Hin|Hin]%elem_of_app; [by left|right].
  apply list_elem_of_filter in Hin as [Hexp Hin].
  unfold expired in Hexp. apply andb_true_iff in Hexp as [H1 H2].
  apply negb_true_iff in H1. apply Z.ltb_lt in H2. done.
Qed.

(** C4 on the code: a pool configured for four connections, all four idle
    past the idle timeout.  The floor is two; one pass removes all four.
    The callback tests the length of [connections] for each record, but
    the removals it starts only happen after it has returned. *)
Theorem cleanup_pass_goes_below_floor :
  let w := idlePool 4 in
  (size (config w) / 2)%Z = 2%Z
  ∧ total (getStatus w) = 4
  ∧ total (getStatus (cleanupTick w)) = 4
  ∧ length (jobs (cleanupTick w)) = 4
  ∧ total (getStatus (cleanupPass reliable w)) = 0.
Proof. cbv zeta. split_and!; vm_compute; reflexivity. Qed.

(** ** What shrinking does *)

Lemma indexOf_present (l : list PoolConnection) (connection : PoolConnection)
    (index : nat) :
  NoDup (client <$> l) -> connection ∈ l ->
  indexOf connection l = Some index -> l !! index = Some connection.
Proof.
  intros Hnd (k & Hk)%list_elem_of_lookup Hidx. unfold indexOf in Hidx.
  destruct (list_find _ _) as [[j conn']|] eqn:Hfind; [|done].
  injection Hidx as <-.
  apply list_find_Some in Hfind as (Hj & Hcl & _).
  by rewrite (same_client_same_index l j k conn' connection Hnd Hj Hk Hcl).
Qed.

(** X15.  Shrinking removes idle records only, and no more than asked for: every
    busy record is still there afterwards, in the same order. *)
Lemma shrink_keeps_busy_records (env : Env) (newSize : Z) (w : World) :
  NoDup (client <$> connections w) ->
  (newSize < Z.of_nat (length (connections w)))%Z ->
  let w' := snd (resize env newSize w) in
  connections w' `sublist_of` connections w
  ∧ filter (λ conn, inUse conn = true) (connections w')
    = filter (λ conn, inUse conn = true) (connections w)
  ∧ length (connections w)
    ≤ length (connections w')
      + Z.to_nat (Z.of_nat (length (connections w)) - newSize).
Proof.
  intros Hnd Hlt w'. subst w'. unfold resize.
  rewrite (proj2 (Z.ltb_ge _ _)) by lia.
  rewrite (proj2 (Z.ltb_lt _ _)) by lia.
  set (toRemove := Z.to_nat (Z.of_nat (length (connections w)) - newSize)).
  set (J := λ s : nat * World,
         connections (snd s) `sublist_of` connections w
         ∧ filter (λ conn, inUse conn = true) (connections (snd s))
           = filter (λ conn, inUse conn = true) (connections w)
         ∧ fst s ≤ toRemove
         ∧ length (connections w) ≤ length (connections (snd s)) + fst s).
  assert (HJ : J (for_of (length (connections w)) 0 (shrink_body env toRemove) (0, w))).
  { apply for_of_invariant; [|unfold J; cbn; split_and!; [done|done|lia|lia]].
    intros connection [removed w0] (Hsub & Hbusy & Hrem & Hlen) Hin.
    cbn in Hsub, Hbusy, Hrem, Hlen, Hin. unfold shrink_body.
    destruct (inUse connection) eqn:Hidle; cbn [negb andb];
      [unfold J; cbn; done|].
    destruct (Nat.ltb_spec removed toRemove) as [Hr|Hr];
      [|unfold J; cbn; done].
    unfold J, removeConnection, removeConnection_resume. cbn [fst snd].
    destruct (disconnectFails env _); [cbn; split_and!; [done|done|lia|lia]|].
    destruct (indexOf connection (connections w0)) as [index|] eqn:Hidx;
      [|cbn; split_and!; [done|done|lia|lia]].
    assert (Hnd0 : NoDup (client <$> connections w0)).
    { eapply sublist_NoDup; [exact Hnd|by apply fmap_sublist]. }
    pose proof (indexOf_present _ _ _ Hnd0 Hin Hidx) as Hat.
    cbn. split_and!.
    - etrans; [apply sublist_delete|done].
    - rewrite (filter_delete_false _ _ _ connection); [done|done|].
      by rewrite Hidle.
    - lia.
    - rewrite length_delete by eauto. lia. }
  destruct (for_of _ _ _ _) as [removed w1].
  destruct HJ as (Hsub & Hbusy & Hrem & Hlen). cbn in *.
  split_and!; [done|done|lia].
Qed.

(** C5 on the code: [resize(0)] on two idle connections leaves one.  The
    first removal shifts the second record to index 0 while the iterator
    moves on to index 1. *)
Theorem resize_zero_leaves_a_connection :
  let w := freshPool 2 in
  getStatus w = {| total := 2; active := 0; idle := 2; waiting := 0 |}
  ∧ fst (resize reliable 0 w) = Normal tt
  ∧ getStatus (snd (resize reliable 0 w))
    = {| total := 1; active := 0; idle := 1; waiting := 0 |}.
Proof. cbv zeta. split_and!; vm_compute; reflexivity. Qed.

Example resize_five_to_three :
  total (getStatus (snd (resize reliable 3 (freshPool 5)))) = 3.
Proof. vm_compute. reflexivity. Qed.

Example resize_five_to_zero :
  total (getStatus (snd (resize reliable 0 (freshPool 5)))) = 2.
Proof. vm_compute. reflexivity. Qed.

(** ** close *)

(** X17.  When every [$disconnect()] succeeds, [close] returns with no record,
    no queue entry and [initialized] false. *)
Lemma close_clean (env : Env) (w : World) :
  (∀ conn, conn ∈ connections w -> disconnectFails env (client conn) = false) ->
  fst (close env w) = Normal tt
  ∧ total (getStatus (snd (close env w))) = 0
  ∧ waitQueue (snd (close env w)) = []
  ∧ initialized (snd (close env w)) = false.
Proof.
  intros Hok. unfold close.
  assert (Hex : existsb (λ conn, disconnectFails env (client conn))
                  (connections
                     (with_waitQueue
                        (rejectAll PoolClosingError (waitQueue w) w) [])) = false).
  { apply not_true_is_false. intros (conn & Hin & Hf)%existsb_exists.
    apply list_elem_of_In in Hin. cbn in Hin.
    assert (Hsame : ∀ q w0, connections (rejectAll PoolClosingError q w0)
                            = connections w0).
    { unfold rejectAll. induction q as [|waiter q IH]; intros w0; [done|].
      cbn. rewrite IH. destruct (reject waiter) as [p|p]; cbn; unfold settle; cbn;
        by destruct (promises w0 !! p) as [[| |]|]. }
    rewrite Hsame in Hin. rewrite (Hok conn Hin) in Hf. discriminate. }
  rewrite Hex. done.
Qed.

(** C6 on the code: when a [$disconnect()] rejects, [close] rejects too;
    the queue has been emptied but the records are still there and the
    pool still counts as initialized. *)
Theorem close_propagates_disconnect_failure :
  let w := freshPool 1 in
  fst (close stuckDisconnect w) = Throw disconnectError
  ∧ total (getStatus (snd (close stuckDisconnect w))) = 1
  ∧ initialized (snd (close stuckDisconnect w)) = true.
Proof. cbv zeta. split_and!; vm_compute; reflexivity. Qed.

(** * Further properties of the pool *)

(** ** getStatus *)

Lemma busy_idle_partition (l : list PoolConnection) :
  length (filter (λ conn, inUse conn = true) l)
  + length (filter (λ conn, inUse conn = false) l)
  = length l.
Proof.
  induction l as [|x l IH]; [done|].
  rewrite !filter_cons.
  destruct (inUse x) eqn:Hx.
  - rewrite decide_True by done. rewrite decide_False by done. cbn. lia.
  - rewrite decide_False by done. rewrite decide_True by done. cbn. lia.
Qed.

(** X1.  In every state of the pool, the [active] and [idle] counts that
    [getStatus] reports add up to [total]. *)
Theorem status_counts_add_up (w : World) :
  active (getStatus w) + idle (getStatus w) = total (getStatus w).
Proof. apply busy_idle_partition. Qed.

(** ** createConnection and initialize *)

Lemma createConnection_frame (env : Env) (w : World) :
  let w' := snd (createConnection env w) in
  waitQueue w' = waitQueue w ∧ promises w' = promises w
  ∧ timers w' = timers w ∧ config w' = config w
  ∧ initialized w' = initialized w ∧ clock w' = clock w
  ∧ jobs w' = jobs w.
Proof. unfold createConnection. by destruct (connectFails env _). Qed.

(** The loop of pool.ts:58-60 and 275-277: it creates connections until
    the first refusal, [j] being the number created. *)
Lemma createConnections_run (env : Env) (n j : nat) (w : World) :
  j ≤ n ->
  (∀ k, k < j -> connectFails env (nextClient w + k) = false) ->
  (j < n -> connectFails env (nextClient w + j) = true) ->
  let r := createConnections env n w in
  connections (snd r)
  = connections w ++ ((λ c, new_connection c (clock w)) <$> seq (nextClient w) j)
  ∧ fst r = (if j <? n then Throw connectError else Normal tt)
  ∧ waitQueue (snd r) = waitQueue w ∧ promises (snd r) = promises w
  ∧ timers (snd r) = timers w ∧ config (snd r) = config w
  ∧ initialized (snd r) = initialized w ∧ clock (snd r) = clock w.
Proof.
  revert j w. induction n as [|n IH]; intros j w Hj Hok Hfail.
  - assert (j = 0) as -> by lia. cbn. by rewrite app_nil_r.
  - cbn [createConnections]. unfold createConnection.
    destruct j as [|j].
    + rewrite Nat.add_0_r in Hfail. rewrite Hfail by lia. cbn.
      by rewrite app_nil_r.
    + pose proof (Hok 0 ltac:(lia)) as H0. rewrite Nat.add_0_r in H0.
      rewrite H0.
      set (w1 := with_connections (with_nextClient w (S (nextClient w))) _).
      assert (H1 : j ≤ n) by lia.
      assert (H2 : ∀ k, k < j -> connectFails env (nextClient w1 + k) = false).
      { intros k Hk. change (nextClient w1) with (S (nextClient w)).
        replace (S (nextClient w) + k) with (nextClient w + S k) by lia.
        apply Hok. lia. }
      assert (H3 : j < n -> connectFails env (nextClient w1 + j) = true).
      { intros Hlt. change (nextClient w1) with (S (nextClient w)).
        replace (S (nextClient w) + j) with (nextClient w + S j) by lia.
        apply Hfail. lia. }
      pose proof (IH j w1 H1 H2 H3) as H. cbn zeta in H.
      destruct H as (Hc & Hr & Hq & Hp & Ht & Hcfg & Hi & Hcl).
      cbn zeta. rewrite Hc, Hr, Hq, Hp, Ht, Hcfg, Hi, Hcl. cbn.
      rewrite <- app_assoc. by split_and!.
Qed.

(** X2.  When the database accepts every connection, [initialize] on a
    pool that is not yet initialized returns normally, adds exactly
    [size] idle connections (none for a non-positive size) after the ones
    already there, and marks the pool initialized; a second [initialize]
    then changes nothing. *)
Theorem initialize_creates_size_connections (env : Env) (w : World) :
  initialized w = false ->
  (∀ c, connectFails env c = false) ->
  let w' := snd (initialize env w) in
  fst (initialize env w) = Normal tt
  ∧ connections w'
    = connections w ++
      ((λ c, new_connection c (clock w))
         <$> seq (nextClient w) (Z.to_nat (size (config w))))
  ∧ initialized w' = true
  ∧ initialize env w' = (Normal tt, w').
Proof.
  intros Hinit Hok w'.
  assert (H : fst (initialize env w) = Normal tt
              ∧ connections w'
                = connections w ++
                  ((λ c, new_connection c (clock w))
                     <$> seq (nextClient w) (Z.to_nat (size (config w))))
              ∧ initialized w' = true).
  { subst w'. unfold initialize. rewrite Hinit.
    destruct (createConnections_run env (Z.to_nat (size (config w)))
                (Z.to_nat (size (config w))) w) as (Hc & Hr & _);
      [lia|auto|lia|].
    rewrite Nat.ltb_irrefl in Hr. cbn zeta in Hc, Hr.
    by destruct (createConnections _ _ _) as [[u|e] w1]. }
  destruct H as (H1 & H2 & H3). split_and!; try done.
  unfold initialize at 1. by rewrite H3.
Qed.

Lemma initialize_creates_size_connections_witness :
  let w := constructor (poolOf 3) in
  let w' := snd (initialize reliable w) in
  fst (initialize reliable w) = Normal tt
  ∧ connections w'
    = connections w ++
      ((λ c, new_connection c (clock w))
         <$> seq (nextClient w) (Z.to_nat (size (config w))))
  ∧ initialized w' = true
  ∧ initialize reliable w' = (Normal tt, w').
Proof.
  apply (initialize_creates_size_connections reliable (constructor (poolOf 3)));
    [reflexivity|intros c; reflexivity].
Defined.

(** X3.  When the database refuses a connection, [initialize] rethrows
    the error and leaves the pool uninitialized, and the connections
    created before the refusal stay in the pool: nothing is torn down. *)
Theorem initialize_failure_keeps_partial (env : Env) (w : World) (j : nat) :
  initialized w = false ->
  j < Z.to_nat (size (config w)) ->
  (∀ k, k < j -> connectFails env (nextClient w + k) = false) ->
  connectFails env (nextClient w + j) = true ->
  let w' := snd (initialize env w) in
  fst (initialize env w) = Throw connectError
  ∧ initialized w' = false
  ∧ connections w'
    = connections w ++ ((λ c, new_connection c (clock w)) <$> seq (nextClient w) j).
Proof.
  intros Hinit Hj Hok Hfail w'. subst w'. unfold initialize. rewrite Hinit.
  destruct (createConnections_run env (Z.to_nat (size (config w))) j w)
    as (Hc & Hr & _ & _ & _ & _ & Hi & _); [lia|auto|auto|].
  rewrite (proj2 (Nat.ltb_lt _ _) Hj) in Hr. cbn zeta in Hc, Hr, Hi.
  destruct (createConnections _ _ _) as [[u|e] w1]; cbn in *; [done|].
  injection Hr as ->. by rewrite Hi.
Qed.

Lemma initialize_failure_keeps_partial_witness :
  let w := constructor (poolOf 5) in
  let w' := snd (initialize (failsAt 2) w) in
  fst (initialize (failsAt 2) w) = Throw connectError
  ∧ initialized w' = false
  ∧ connections w'
    = connections w ++ ((λ c, new_connection c (clock w)) <$> seq (nextClient w) 2).
Proof.
  apply (initialize_failure_keeps_partial (failsAt 2) (constructor (poolOf 5)) 2).
  - reflexivity.
  - vm_compute. lia.
  - intros [|[|k]] Hk; [reflexivity|reflexivity|lia].
  - reflexivity.
Defined.

(** ** resize *)

Lemma createConnections_frame (env : Env) (n : nat) (w : World) :
  let w' := snd (createConnections env n w) in
  waitQueue w' = waitQueue w ∧ promises w' = promises w
  ∧ timers w' = timers w ∧ config w' = config w
  ∧ initialized w' = initialized w.
Proof.
  revert w. induction n as [|n IH]; intros w; [done|].
  cbn [createConnections].
  pose proof (createConnection_frame env w) as (H1 & H2 & H3 & H4 & H5 & _).
  destruct (createConnection env w) as [[u|e] w1]; cbn in *; [|done].
  destruct (IH w1) as (I1 & I2 & I3 & I4 & I5). cbn zeta in *.
  split_and!; congruence.
Qed.

Lemma removeConnection_resume_frame (env : Env) (connection : PoolConnection)
    (w : World) :
  let w' := removeConnection_resume env connection w in
  waitQueue w' = waitQueue w ∧ promises w' = promises w ∧ timers w' = timers w.
Proof.
  unfold removeConnection_resume.
  destruct (disconnectFails env _); [done|]. by destruct (indexOf _ _).
Qed.

(** X4.  [resize] never touches the wait queue, the promises of pending
    acquisitions or their timers: a caller queued before the pool grows
    stays queued although idle connections now exist. *)
Theorem resize_never_wakes_waiters (env : Env) (newSize : Z) (w : World) :
  waitQueue (snd (resize env newSize w)) = waitQueue w
  ∧ promises (snd (resize env newSize w)) = promises w
  ∧ timers (snd (resize env newSize w)) = timers w.
Proof.
  unfold resize. destruct (_ <? newSize)%Z.
  - pose proof (createConnections_frame env
                  (Z.to_nat (newSize - Z.of_nat (length (connections w)))) w)
      as (H1 & H2 & H3 & _).
    by destruct (createConnections _ _ _) as [[u|e] w1].
  - destruct (newSize <? _)%Z; [|done].
    set (J := λ s : nat * World,
           waitQueue (snd s) = waitQueue w ∧ promises (snd s) = promises w
           ∧ timers (snd s) = timers w).
    assert (HJ : J (for_of (length (connections w)) 0
                      (shrink_body env
                         (Z.to_nat (Z.of_nat (length (connections w)) - newSize)))
                      (0, w))).
    { apply for_of_invariant; [|done].
      intros connection [removed w0] (H1 & H2 & H3) _. unfold shrink_body, J.
      destruct (negb (inUse connection) && _); [|done]. cbn [snd].
      destruct (removeConnection_resume_frame env connection w0) as (F1 & F2 & F3).
      cbn in *. unfold removeConnection. split_and!; congruence. }
    by destruct (for_of _ _ _ _) as [removed w1].
Qed.

(** X5.  When the database accepts every connection, [resize] to more
    than the current number of connections returns normally, appends the
    missing idle connections after the existing ones, so that [total] is
    the new size, and records the new size in the configuration. *)
Theorem resize_grows_to_target (env : Env) (newSize : Z) (w : World) :
  (Z.of_nat (length (connections w)) < newSize)%Z ->
  (∀ c, connectFails env c = false) ->
  let w' := snd (resize env newSize w) in
  fst (resize env newSize w) = Normal tt
  ∧ connections w'
    = connections w ++
      ((λ c, new_connection c (clock w))
         <$> seq (nextClient w)
               (Z.to_nat (newSize - Z.of_nat (length (connections w)))))
  ∧ Z.of_nat (total (getStatus w')) = newSize
  ∧ size (config w') = newSize.
Proof.
  intros Hlt Hok w'. subst w'. unfold resize.
  rewrite (proj2 (Z.ltb_lt _ _) Hlt).
  set (toAdd := Z.to_nat (newSize - Z.of_nat (length (connections w)))).
  destruct (createConnections_run env toAdd toAdd w) as (Hc & Hr & _);
    [lia|auto|lia|].
  rewrite Nat.ltb_irrefl in Hr. cbn zeta in Hc, Hr.
  destruct (createConnections _ _ _) as [[u|e] w1]; cbn in *; [|done].
  split_and!; try done.
  rewrite Hc, length_app, length_fmap, length_seq. lia.
Qed.

Lemma resize_grows_to_target_witness :
  let w := freshPool 2 in
  let w' := snd (resize reliable 5 w) in
  fst (resize reliable 5 w) = Normal tt
  ∧ connections w'
    = connections w ++
      ((λ c, new_connection c (clock w))
         <$> seq (nextClient w)
               (Z.to_nat (5 - Z.of_nat (length (connections w)))))
  ∧ Z.of_nat (total (getStatus w')) = 5%Z
  ∧ size (config w') = 5%Z.
Proof.
  apply (resize_grows_to_target reliable 5 (freshPool 2));
    [vm_compute; reflexivity|intros c; reflexivity].
Defined.

(** X6.  [resize] fails only while growing, with the error of the refused
    connection, and then leaves the configured size as it was: the line
    that records the new size is not reached. *)
Theorem resize_failure_keeps_size (env : Env) (newSize : Z) (w : World)
    (e : Error) :
  fst (resize env newSize w) = Throw e ->
  e = connectError
  ∧ (Z.of_nat (length (connections w)) < newSize)%Z
  ∧ config (snd (resize env newSize w)) = config w.
Proof.
  unfold resize. destruct (Z.ltb_spec (Z.of_nat (length (connections w))) newSize).
  - pose proof (createConnections_frame env
                  (Z.to_nat (newSize - Z.of_nat (length (connections w)))) w)
      as (_ & _ & _ & Hcfg & _).
    assert (Herr : ∀ n w0 e0, fst (createConnections env n w0) = Throw e0
                              -> e0 = connectError).
    { induction n as [|n IH]; intros w0 e0; [done|]. cbn [createConnections].
      unfold createConnection at 1. destruct (connectFails env _); cbn.
      - by intros [= <-].
      - apply IH. }
    pose proof (Herr (Z.to_nat (newSize - Z.of_nat (length (connections w)))) w e)
      as He.
    destruct (createConnections _ _ _) as [[u|e'] w1]; cbn in *; [done|].
    intros [= <-]. split_and!; auto.
  - destruct (newSize <? _)%Z; [|done].
    by destruct (for_of _ _ _ _) as [removed w1].
Qed.

Lemma resize_failure_keeps_size_witness :
  connectError = connectError
  ∧ (Z.of_nat (length (connections (freshPool 2))) < 5)%Z
  ∧ config (snd (resize (failsAt 3) 5 (freshPool 2))) = config (freshPool 2).
Proof.
  apply (resize_failure_keeps_size (failsAt 3) 5 (freshPool 2) connectError).
  vm_compute. reflexivity.
Defined.

(** ** acquire *)

Lemma active_after_checkout (l : list PoolConnection) (i : nat)
    (x y : PoolConnection) :
  l !! i = Some x -> inUse x = false -> inUse y = true ->
  length (filter (λ conn, inUse conn = true) (<[i := y]> l))
  = S (length (filter (λ conn, inUse conn = true) l)).
Proof.
  revert i. induction l as [|a l IH]; intros [|i] Hi Hx Hy; try done.
  - injection Hi as ->.
    change (<[0 := y]> (x :: l)) with (y :: l).
    rewrite !filter_cons, decide_True by done.
    rewrite decide_False by (by rewrite Hx). done.
  - change (<[S i := y]> (a :: l)) with (a :: <[i := y]> l).
    change ((a :: l) !! S i) with (l !! i) in Hi.
    rewrite !filter_cons.
    destruct (decide (inUse a = true)); simpl; by rewrite (IH i).
Qed.

(** X7.  When some record is idle, [acquire] hands out the first idle
    record in array order: the returned promise is already fulfilled with
    that record's client, that record alone is marked in use, every record
    before it was busy, nobody is queued and no timer is armed; [active]
    grows by one and [idle] shrinks by one. *)
Theorem acquire_takes_first_idle (w : World) (i : nat)
    (connection : PoolConnection) :
  list_find (λ conn, inUse conn = false) (connections w) = Some (i, connection) ->
  let p := fst (acquire w) in
  let w' := snd (acquire w) in
  promises w' !! p = Some (Fulfilled (client connection))
  ∧ connections w' = <[i := mark_acquired (clock w) connection]> (connections w)
  ∧ (∀ j conn, j < i -> connections w !! j = Some conn -> inUse conn = true)
  ∧ waitQueue w' = waitQueue w
  ∧ timers w' = timers w
  ∧ active (getStatus w') = S (active (getStatus w))
  ∧ S (idle (getStatus w')) = idle (getStatus w).
Proof.
  intros Hfind p w'. subst p w'. unfold acquire. rewrite Hfind. cbn.
  apply list_find_Some in Hfind as (Hi & Hidle & Hfirst).
  assert (Hact : length (filter (λ conn, inUse conn = true)
                           (<[i := mark_acquired (clock w) connection]>
                              (connections w)))
                 = S (length (filter (λ conn, inUse conn = true) (connections w)))).
  { by apply (active_after_checkout _ _ connection). }
  split_and!; try done.
  - apply lookup_insert_eq.
  - intros j conn Hj Hconn. specialize (Hfirst j conn Hconn Hj).
    by destruct (inUse conn).
  - pose proof (busy_idle_partition (connections w)) as H1.
    pose proof (busy_idle_partition
                  (<[i := mark_acquired (clock w) connection]> (connections w)))
      as H2.
    rewrite length_insert in H2. lia.
Qed.

Lemma acquire_takes_first_idle_witness :
  let w := oneBusyOfThree in
  let connection :=
    {| client := 1; inUse := false; lastUsed := 0; createdAt := 0 |} in
  let p := fst (acquire w) in
  let w' := snd (acquire w) in
  promises w' !! p = Some (Fulfilled (client connection))
  ∧ connections w' = <[1 := mark_acquired (clock w) connection]> (connections w)
  ∧ (∀ j conn, j < 1 -> connections w !! j = Some conn -> inUse conn = true)
  ∧ waitQueue w' = waitQueue w
  ∧ timers w' = timers w
  ∧ active (getStatus w') = S (active (getStatus w))
  ∧ S (idle (getStatus w')) = idle (getStatus w).
Proof.
  apply (acquire_takes_first_idle oneBusyOfThree 1
           {| client := 1; inUse := false; lastUsed := 0; createdAt := 0 |}).
  vm_compute. reflexivity.
Defined.



(** ** acquire followed by release *)

Lemma find_own_record (l : list PoolConnection) (i : nat) (x : PoolConnection) :
  NoDup (client <$> l) -> l !! i = Some x ->
  list_find (λ conn, client conn = client x) l = Some (i, x).
Proof.
  intros Hnd Hi. apply list_find_Some. split_and!; [done|done|].
  intros j y Hj Hlt Hcl.
  pose proof (same_client_same_index l j i y x Hnd Hj Hi Hcl). lia.
Qed.

Lemma acquire_then_release (w : World) (i : nat) (connection : PoolConnection) :
  NoDup (client <$> connections w) ->
  list_find (λ conn, inUse conn = false) (connections w) = Some (i, connection) ->
  waitQueue w = [] ->
  snd (release (client connection) (snd (acquire w)))
  = with_nextPromise
      (with_promises
         (with_connections w
            (<[i := mark_released (clock w) connection]> (connections w)))
         (<[nextPromise w := Fulfilled (client connection)]> (promises w)))
      (S (nextPromise w)).
Proof.
  intros Hnd Hfind Hqueue. unfold acquire. rewrite Hfind. cbn [snd].
  apply list_find_Some in Hfind as (Hi & Hidle & _).
  set (busy := mark_acquired (clock w) connection).
  unfold release. cbn [connections with_nextPromise with_promises with_connections].
  assert (Hown : list_find (λ conn, client conn = client connection)
                   (<[i := busy]> (connections w)) = Some (i, busy)).
  { apply (find_own_record _ i busy).
    - by rewrite (insert_same_client _ _ connection).
    - apply list_lookup_insert_eq. by eapply lookup_lt_Some. }
  rewrite Hown. cbn. rewrite Hqueue. cbn.
  by rewrite list_insert_insert_eq.
Qed.

Lemma acquire_then_release_status (w : World) (i : nat)
    (connection : PoolConnection) :
  NoDup (client <$> connections w) ->
  list_find (λ conn, inUse conn = false) (connections w) = Some (i, connection) ->
  waitQueue w = [] ->
  let w' := snd (release (client connection) (snd (acquire w))) in
  ((λ conn, (client conn, inUse conn, createdAt conn)) <$> connections w')
  = ((λ conn, (client conn, inUse conn, createdAt conn)) <$> connections w)
  ∧ getStatus w' = getStatus w
  ∧ waitQueue w' = [].
Proof.
  intros Hnd Hfind Hqueue w'. subst w'.
  rewrite (acquire_then_release w i connection Hnd Hfind Hqueue).
  apply list_find_Some in Hfind as (Hi & Hidle & _).
  split_and!; [| |done].
  - cbn. rewrite list_fmap_insert. apply list_insert_id.
    rewrite list_lookup_fmap, Hi. cbn. by rewrite Hidle.
  - unfold getStatus. cbn. rewrite length_insert. f_equal.
    + apply (filter_length_insert _ _ _ connection); [done|].
      cbn. by rewrite Hidle.
    + apply (filter_length_insert _ _ _ connection); [done|].
      cbn. by rewrite Hidle.
Qed.

(** X9.  Round trip: on a pool with an idle record, distinct clients and
    nobody queued, [acquire] followed by [release] of the client it
    returned puts the pool back as it was, except that the record's
    [lastUsed] is renewed: same clients with the same [inUse] flags in
    the same order, same [getStatus], empty queue. *)
Theorem acquire_release_round_trip (w : World) (i : nat)
    (connection : PoolConnection) :
  NoDup (client <$> connections w) ->
  list_find (λ conn, inUse conn = false) (connections w) = Some (i, connection) ->
  waitQueue w = [] ->
  let w' := snd (release (client connection) (snd (acquire w))) in
  ((λ conn, (client conn, inUse conn, createdAt conn)) <$> connections w')
  = ((λ conn, (client conn, inUse conn, createdAt conn)) <$> connections w)
  ∧ getStatus w' = getStatus w
  ∧ waitQueue w' = []
  ∧ fst (release (client connection) (snd (acquire w))) = Normal tt.
Proof.
  intros Hnd Hfind Hqueue w'. subst w'.
  destruct (acquire_then_release_status w i connection Hnd Hfind Hqueue)
    as (H1 & H2 & H3).
  split_and!; [done|done|done|apply release_returns].
Qed.

Lemma acquire_release_round_trip_witness :
  let w := oneBusyOfThree in
  let connection :=
    {| client := 1; inUse := false; lastUsed := 0; createdAt := 0 |} in
  let w' := snd (release (client connection) (snd (acquire w))) in
  ((λ conn, (client conn, inUse conn, createdAt conn)) <$> connections w')
  = ((λ conn, (client conn, inUse conn, createdAt conn)) <$> connections w)
  ∧ getStatus w' = getStatus w
  ∧ waitQueue w' = []
  ∧ fst (release (client connection) (snd (acquire w))) = Normal tt.
Proof.
  apply (acquire_release_round_trip oneBusyOfThree 1
           {| client := 1; inUse := false; lastUsed := 0; createdAt := 0 |}).
  - apply (bool_decide_unpack (NoDup (client <$> connections oneBusyOfThree))).
    vm_compute. exact I.
  - vm_compute. reflexivity.
  - reflexivity.
Defined.

(** ** execute on a pool with an idle record *)

Lemma acquire_takes_first_idle_promise (w : World) (i : nat)
    (connection : PoolConnection) :
  list_find (λ conn, inUse conn = false) (connections w) = Some (i, connection) ->
  promises (snd (acquire w)) !! fst (acquire w)
  = Some (Fulfilled (client connection)).
Proof.
  intros Hfind. unfold acquire. rewrite Hfind. cbn. apply lookup_insert_eq.
Qed.


(** X10.  On a pool with an idle record, distinct clients and nobody
    queued, [execute] of an operation that leaves the pool alone runs the
    operation on the first idle client, completes as the operation did
    (value or error), and leaves [getStatus] as it found it. *)
Theorem execute_leaves_status {T : Type} (wait : World -> World)
    (fn : Client -> World -> Completion T * World) (w : World) (i : nat)
    (connection : PoolConnection) :
  NoDup (client <$> connections w) ->
  list_find (λ conn, inUse conn = false) (connections w) = Some (i, connection) ->
  waitQueue w = [] ->
  (∀ c w0, snd (fn c w0) = w0) ->
  fst (execute wait fn w)
  = Some (fst (fn (client connection) (snd (acquire w))))
  ∧ getStatus (snd (execute wait fn w)) = getStatus w.
Proof.
  intros Hnd Hfind Hqueue Hpure.
  destruct (acquire_then_release_status w i connection Hnd Hfind Hqueue)
    as (_ & Hstatus & _). cbn zeta in Hstatus.
  pose proof (acquire_takes_first_idle_promise w i connection Hfind) as Hp.
  unfold execute. destruct (acquire w) as [p w1]. cbn [fst snd] in *.
  unfold await_acquire. rewrite Hp. cbn.
  unfold try_finally. specialize (Hpure (client connection) w1).
  destruct (fn (client connection) w1) as [r w2]. cbn in Hpure. subst w2.
  pose proof (release_returns (client connection) w1) as Hr.
  destruct (release (client connection) w1) as [[u|e] w3]; cbn in *; [done|].
  discriminate.
Qed.

Lemma execute_leaves_status_witness :
  fst (execute id pureOp oneBusyOfThree)
  = Some (fst (pureOp 1 (snd (acquire oneBusyOfThree))))
  ∧ getStatus (snd (execute id pureOp oneBusyOfThree)) = getStatus oneBusyOfThree.
Proof.
  apply (execute_leaves_status id pureOp oneBusyOfThree 1
           {| client := 1; inUse := false; lastUsed := 0; createdAt := 0 |}).
  - apply (bool_decide_unpack (NoDup (client <$> connections oneBusyOfThree))).
    vm_compute. exact I.
  - vm_compute. reflexivity.
  - reflexivity.
  - intros c w0. reflexivity.
Defined.

(** ** Promises over a whole run *)

Lemma boot_DomOK (cfg : ConnectionPoolConfig) : DomOK (world (boot cfg)).
Proof.
  intros p [st Hp]. change (promises (world (boot cfg))) with
    (∅ : gmap nat PromiseState) in Hp. by rewrite lookup_empty in Hp.
Qed.

Lemma run_DomOK (env : Env) (trace : list Event) (s : Sys) :
  DomOK (world s) -> DomOK (world (run env trace s)).
Proof.
  revert s. induction trace as [|e trace IH]; intros s Hdom; [done|].
  cbn. apply IH. by destruct (step_promises env e s Hdom).
Qed.

(** X11.  An acquisition is settled once: if, after some events, the
    promise [acquire] returned is fulfilled or rejected, it is in that
    same state after any further events.  A caller that timed out is
    never handed a client later, and a caller that got a client is never
    told it timed out or that the pool closed. *)
Theorem acquisition_settles_once (env : Env) (cfg : ConnectionPoolConfig)
    (before after : list Event) (p : PromiseId) (st : PromiseState) :
  promises (world (run env before (boot cfg))) !! p = Some st ->
  st ≠ Pending ->
  promises (world (run env (before ++ after) (boot cfg))) !! p = Some st.
Proof.
  intros Hp Hst. unfold run. rewrite fold_left_app.
  apply (settled_forever env after (run env before (boot cfg)) p st); auto.
  apply run_DomOK, boot_DomOK.
Qed.

Lemma acquisition_settles_once_witness :
  promises (world (run reliable (timedOutTrace ++ [EAcquire; ERelease 0 0; EClose])
                     (boot (poolOf 1)))) !! 1
  = Some (Rejected AcquireTimeoutError).
Proof.
  apply (acquisition_settles_once reliable (poolOf 1) timedOutTrace
           [EAcquire; ERelease 0 0; EClose] 1 (Rejected AcquireTimeoutError)).
  - vm_compute. reflexivity.
  - discriminate.
Defined.

(** ** Hand-off *)

Lemma release_hands_to_head_witness :
  waitQueue (snd (release 0 twoQueued)) = [entryOf 2 0]
  ∧ connections (snd (release 0 twoQueued))
    = <[0 := set_inUse true
               (mark_released (clock twoQueued)
                  {| client := 0; inUse := true; lastUsed := 0; createdAt := 0 |})]>
        (connections twoQueued)
  ∧ active (getStatus twoQueued) ≤ active (getStatus (snd (release 0 twoQueued)))
  ∧ (promises twoQueued !! target (resolve (entryOf 1 0)) = Some Pending ->
     promises (snd (release 0 twoQueued)) !! target (resolve (entryOf 1 0))
     = Some (Fulfilled 0))
  ∧ (∀ q, q ≠ target (resolve (entryOf 1 0)) ->
          promises (snd (release 0 twoQueued)) !! q = promises twoQueued !! q).
Proof.
  apply (release_hands_to_head 0 twoQueued 0
           {| client := 0; inUse := true; lastUsed := 0; createdAt := 0 |}
           (entryOf 1 0) [entryOf 2 0]).
  - vm_compute. reflexivity.
  - vm_compute. reflexivity.
Defined.

Lemma settle_timers (p : PromiseId) (st : PromiseState) (w : World) :
  timers (settle p st w) = timers w.
Proof. unfold settle. by destruct (promises w !! p) as [[| |]|]. Qed.

(** X13.  A hand-off disarms the timeout: when [release] gives the handle
    to the queue entry built by [acquire] for promise [p], the timer of
    [p] is cleared, and a later firing of that timer changes nothing. *)
Theorem handoff_disarms_timer (c : Client) (w : World) (i : nat)
    (connection : PoolConnection) (waiter : Waiter) (rest : list Waiter)
    (p : PromiseId) :
  recordOf c w = Some (i, connection) ->
  waitQueue w = waiter :: rest ->
  resolve waiter = WaiterResolve p ->
  timers (snd (release c w)) !! p = None
  ∧ fireTimer p (snd (release c w)) = snd (release c w).
Proof.
  intros Hrec Hqueue Hres. unfold recordOf in Hrec.
  assert (Ht : timers (snd (release c w)) !! p = None).
  { unfold release. rewrite Hrec. cbn [with_connections waitQueue].
    rewrite Hqueue. cbn [snd]. rewrite Hres. cbn [call_resolve].
    rewrite settle_timers. cbn. apply lookup_delete_eq. }
  split; [done|]. unfold fireTimer. by rewrite Ht.
Qed.

Lemma handoff_disarms_timer_witness :
  timers (snd (release 0 twoQueued)) !! 1 = None
  ∧ fireTimer 1 (snd (release 0 twoQueued)) = snd (release 0 twoQueued).
Proof.
  apply (handoff_disarms_timer 0 twoQueued 0
           {| client := 0; inUse := true; lastUsed := 0; createdAt := 0 |}
           (entryOf 1 0) [entryOf 2 0] 1).
  - vm_compute. reflexivity.
  - vm_compute. reflexivity.
  - reflexivity.
Defined.

(** ** Shrinking and closing, worked *)

Lemma shrink_keeps_busy_records_witness :
  let w := oneBusyOfThree in
  let w' := snd (resize reliable 0 w) in
  connections w' `sublist_of` connections w
  ∧ filter (λ conn, inUse conn = true) (connections w')
    = filter (λ conn, inUse conn = true) (connections w)
  ∧ length (connections w)
    ≤ length (connections w')
      + Z.to_nat (Z.of_nat (length (connections w)) - 0).
Proof.
  apply (shrink_keeps_busy_records reliable 0 oneBusyOfThree).
  - apply (bool_decide_unpack (NoDup (client <$> connections oneBusyOfThree))).
    vm_compute. exact I.
  - vm_compute. reflexivity.
Defined.

Lemma close_clean_witness :
  fst (close reliable twoQueued) = Normal tt
  ∧ total (getStatus (snd (close reliable twoQueued))) = 0
  ∧ waitQueue (snd (close reliable twoQueued)) = []
  ∧ initialized (snd (close reliable twoQueued)) = false.
Proof.
  apply (close_clean reliable twoQueued). intros conn Hin. reflexivity.
Defined.

Lemma call_reject_promise (f : RejectFn) (e : Error) (w : World) :
  promises w !! rejectTarget f = Some Pending ->
  promises (call_reject f e w) !! rejectTarget f = Some (Rejected e).
Proof.
  intros Hp. destruct f as [p|p]; cbn in *; unfold settle; cbn; rewrite Hp; cbn;
    apply lookup_insert_eq.
Qed.

Lemma call_reject_other (f : RejectFn) (e : Error) (w : World) (q : PromiseId) :
  q ≠ rejectTarget f ->
  promises (call_reject f e w) !! q = promises w !! q.
Proof.
  intros Hne. destruct f as [p|p]; cbn in *; unfold settle; cbn;
    destruct (promises w !! p) as [[| |]|]; cbn; try done;
    by rewrite lookup_insert_ne.
Qed.

Lemma rejectAll_rejects (e : Error) (queue : list Waiter) (w : World)
    (waiter : Waiter) :
  waiter ∈ queue ->
  promises w !! rejectTarget (reject waiter) = Some Pending ->
  promises (rejectAll e queue w) !! rejectTarget (reject waiter)
  = Some (Rejected e).
Proof.
  revert w. induction queue as [|x queue IH]; intros w Hin Hp.
  - by apply elem_of_nil in Hin.
  - change (rejectAll e (x :: queue) w)
      with (rejectAll e queue (call_reject (reject x) e w)).
    destruct (decide (rejectTarget (reject waiter) = rejectTarget (reject x)))
      as [Heq|Hne].
    + apply (quiet_settled _ _ (rejectAll_quiet e queue _)); [|done].
      rewrite Heq. apply call_reject_promise. by rewrite <- Heq.
    + apply elem_of_cons in Hin as [->|Hin]; [done|].
      apply IH; [done|]. by rewrite call_reject_other.
Qed.

(** X16.  [close] rejects every acquisition that is still pending in the
    queue with the error "Connection pool is closing", whether or not the
    disconnections that follow succeed. *)
Theorem close_rejects_pending_waiters (env : Env) (w : World) (waiter : Waiter) :
  waiter ∈ waitQueue w ->
  promises w !! rejectTarget (reject waiter) = Some Pending ->
  promises (snd (close env w)) !! rejectTarget (reject waiter)
  = Some (Rejected PoolClosingError).
Proof.
  intros Hin Hp.
  pose proof (rejectAll_rejects PoolClosingError (waitQueue w) w waiter Hin Hp)
    as Hrej.
  unfold close. by destruct (existsb _ _).
Qed.

Lemma close_rejects_pending_waiters_witness :
  promises (snd (close stuckDisconnect twoQueued)) !! rejectTarget (reject (entryOf 2 0))
  = Some (Rejected PoolClosingError).
Proof.
  apply (close_rejects_pending_waiters stuckDisconnect twoQueued (entryOf 2 0)).
  - apply (list_elem_of_lookup_2 _ 1). vm_compute. reflexivity.
  - vm_compute. reflexivity.
Defined.

(** ** execute when the acquisition fails *)

Lemma execute_acquire_failed_witness :
  execute (waitForTimeout 1) failingOp exhaustedPool
  = (Some (Throw AcquireTimeoutError),
     waitForTimeout 1 (snd (acquire exhaustedPool))).
Proof.
  apply (execute_acquire_failed (waitForTimeout 1) failingOp exhaustedPool
           (waitForTimeout 1 (snd (acquire exhaustedPool))) AcquireTimeoutError).
  vm_compute. reflexivity.
Defined.

(** ** What a cleanup pass spares *)

Lemma delete_keeps_other {A : Type} (l : list A) (i k : nat) (x : A) :
  l !! k = Some x -> k ≠ i -> x ∈ delete i l.
Proof.
  intros Hk Hne. destruct (decide (k < i)) as [Hlt|Hge].
  - apply (list_elem_of_lookup_2 _ k). by rewrite list_lookup_delete_lt.
  - apply (list_elem_of_lookup_2 _ (pred k)).
    rewrite list_lookup_delete_ge by lia. replace (S (pred k)) with k by lia. done.
Qed.

Lemma removeConnection_resume_keeps (env : Env) (connection conn : PoolConnection)
    (w : World) :
  conn ∈ connections w -> client conn ≠ client connection ->
  conn ∈ connections (removeConnection_resume env connection w)
  ∧ jobs (removeConnection_resume env connection w) = jobs w.
Proof.
  intros Hin Hne. unfold removeConnection_resume.
  destruct (disconnectFails env _); [done|].
  unfold indexOf.
  destruct (list_find _ _) as [[index y]|] eqn:Hfind; [|done]. cbn.
  split; [|done].
  apply list_find_Some in Hfind as (Hy & Hcl & _).
  apply list_elem_of_lookup in Hin as [k Hk].
  apply (delete_keeps_other _ index k); [done|].
  intros ->. rewrite Hk in Hy. injection Hy as ->. done.
Qed.

Lemma runJobs_keeps (env : Env) (n : nat) (w : World) (conn : PoolConnection) :
  conn ∈ connections w ->
  (∀ job, job ∈ jobs w -> client conn ≠ client job) ->
  conn ∈ connections (runJobs env n w).
Proof.
  revert w. induction n as [|n IH]; intros w Hin Hjobs; [done|].
  cbn [runJobs]. unfold runJob.
  destruct (jobs w) as [|job rest] eqn:Hj; [by apply IH; [|rewrite Hj]|].
  destruct (removeConnection_resume_keeps env job conn (with_jobs w rest))
    as [Hkeep Hsame]; [done|apply Hjobs, list_elem_of_here|].
  apply IH; [done|]. rewrite Hsame. cbn.
  intros job' Hin'. apply Hjobs. by apply list_elem_of_further.
Qed.

(** X14.  One cleanup pass (the callback and the removals it started)
    spares every record that is checked out and every idle record that
    was used within the idle timeout, whether the disconnections succeed
    or not. *)
Theorem cleanup_pass_spares_busy_and_recent (env : Env) (w : World)
    (conn : PoolConnection) :
  NoDup (client <$> connections w) ->
  jobs w = [] ->
  conn ∈ connections w ->
  expired (clock w) (or_default (idleTimeout (config w)) 60000) conn = false ->
  conn ∈ connections (cleanupPass env w).
Proof.
  intros Hnd Hjobs Hin Hfresh. unfold cleanupPass, drainJobs.
  rewrite cleanupTick_all_or_nothing.
  destruct (aboveFloor w).
  2:{ rewrite Hjobs. done. }
  apply runJobs_keeps; [done|]. cbn. rewrite Hjobs. cbn.
  intros job [Hexp Hjob]%list_elem_of_filter Hcl.
  apply list_elem_of_lookup in Hin as [k Hk].
  apply list_elem_of_lookup in Hjob as [j Hj].
  pose proof (same_client_same_index _ k j conn job Hnd Hk Hj Hcl) as ->.
  rewrite Hk in Hj. injection Hj as ->. congruence.
Qed.

Lemma cleanup_pass_spares_busy_and_recent_witness :
  {| client := 0; inUse := true; lastUsed := 0; createdAt := 0 |}
  ∈ connections (cleanupPass reliable staleWithOneBusy).
Proof.
  apply (cleanup_pass_spares_busy_and_recent reliable staleWithOneBusy
           {| client := 0; inUse := true; lastUsed := 0; createdAt := 0 |}).
  - apply (bool_decide_unpack (NoDup (client <$> connections staleWithOneBusy))).
    vm_compute. exact I.
  - reflexivity.
  - apply (list_elem_of_lookup_2 _ 0). vm_compute. reflexivity.
  - vm_compute. reflexivity.
Defined.

(** * Properties of the helpers *)

(** ** mask *)

Lemma concat_replicate_singleton {A : Type} (n : nat) (x : A) :
  concat (replicate n [x]) = replicate n x.
Proof. induction n as [|n IH]; [done|]. cbn. by rewrite IH. Qed.

(** X19.  With a one-character mask and [0 < visibleChars < data.length],
    [mask] returns a string of the same length as [data] whose last
    [visibleChars] characters are those of [data] and whose other
    characters are all the mask character. *)
Theorem mask_hides_all_but_suffix (data : JsString) (visibleChars : Z) (m : N) :
  (0 < visibleChars)%Z ->
  (visibleChars < Z.of_nat (length data))%Z ->
  let hidden := length data - Z.to_nat visibleChars in
  mask data visibleChars [m] = Normal (replicate hidden m ++ drop hidden data)
  ∧ length (replicate hidden m ++ drop hidden data) = length data.
Proof.
  intros Hpos Hlt hidden. unfold mask, js_repeat, js_slice.
  rewrite (proj2 (Z.leb_gt _ _)) by lia.
  rewrite (proj2 (Z.ltb_ge _ _)) by lia.
  rewrite (proj2 (Z.ltb_lt _ _)) by lia.
  rewrite concat_replicate_singleton.
  replace (Z.to_nat (Z.of_nat (length data) - visibleChars)) with hidden
    by (unfold hidden; lia).
  replace (Z.to_nat (Z.max (Z.of_nat (length data) + - visibleChars) 0))
    with hidden by (unfold hidden; lia).
  split; [done|].
  rewrite length_app, length_replicate, length_drop. unfold hidden. lia.
Qed.

Lemma mask_hides_all_but_suffix_witness :
  let hidden := length tenDigits - Z.to_nat 4 in
  mask tenDigits 4 [star] = Normal (replicate hidden star ++ drop hidden tenDigits)
  ∧ length (replicate hidden star ++ drop hidden tenDigits) = length tenDigits.
Proof.
  apply (mask_hides_all_but_suffix tenDigits 4 star); [lia|cbn; lia].
Defined.

(** X20.  With [visibleChars = 0] nothing is hidden: [slice(-0)] is
    [slice(0)], so for a non-empty [data] the result is the run of mask
    characters followed by the whole of [data]. *)
Theorem mask_zero_visible_appends_data (data : JsString) (m : N) :
  data ≠ [] ->
  mask data 0 [m] = Normal (replicate (length data) m ++ data).
Proof.
  intros Hne. unfold mask, js_repeat, js_slice.
  assert (0 < length data) by (destruct data; [done|cbn; lia]).
  rewrite (proj2 (Z.leb_gt _ _)) by lia.
  rewrite (proj2 (Z.ltb_ge _ _)) by lia.
  change (- 0)%Z with 0%Z. change (0 <? 0)%Z with false. cbv iota.
  rewrite concat_replicate_singleton.
  replace (Z.to_nat (Z.of_nat (length data) - 0)) with (length data) by lia.
  replace (Z.to_nat (Z.min 0 (Z.of_nat (length data)))) with 0 by lia.
  done.
Qed.

Lemma mask_zero_visible_appends_data_witness :
  mask tenDigits 0 [star] = Normal (replicate (length tenDigits) star ++ tenDigits).
Proof. apply (mask_zero_visible_appends_data tenDigits star). discriminate. Defined.

(** ** parseSize *)

Lemma spanDigits_app (ds r : JsString) :
  Forall (λ c, isDigit c = true) ds ->
  (∀ c r', r = c :: r' -> isDigit c = false) ->
  spanDigits (ds ++ r) = (ds, r).
Proof.
  intros Hds Hr. induction Hds as [|c ds Hc _ IH]; cbn.
  - destruct r as [|c r']; [done|]. cbn. by rewrite (Hr c r').
  - by rewrite Hc, IH.
Qed.

Lemma units_not_digit (u : N) (f : Z) :
  units (toLowerCase u) = Some f -> isDigit u = false.
Proof.
  unfold units, toLowerCase, isDigit.
  destruct (N.leb_spec 65 u), (N.leb_spec u 90), (N.leb_spec 48 u),
    (N.leb_spec u 57); cbn; try done;
    repeat match goal with
           | |- context [(?a =? ?b)%N] => destruct (N.eqb_spec a b); try lia
           end; done.
Qed.

(** X21.  For a non-empty string of at most 15 decimal digits followed by
    one of the letters b, k, m, g in either case, [parseSize] is the
    number times 1, 1024, 1024^2 or 1024^3; with no letter it is the
    number itself. *)
Theorem parseSize_well_formed (ds : JsString) (u : N) (f : Z) :
  ds ≠ [] ->
  Forall (λ c, isDigit c = true) ds ->
  length ds ≤ 15 ->
  units (toLowerCase u) = Some f ->
  parseSize (ds ++ [u]) = (parseInt ds * f)%Z
  ∧ parseSize ds = parseInt ds.
Proof.
  intros Hne Hds _ Hu. unfold parseSize, matchSize. split.
  - rewrite (spanDigits_app ds [u] Hds).
    2:{ intros c r' [= <- <-]. by apply (units_not_digit _ f). }
    destruct ds as [|d ds]; [done|]. rewrite Hu. cbn. by rewrite Hu.
  - rewrite <- (app_nil_r ds) at 1. rewrite (spanDigits_app ds [] Hds) by done.
    destruct ds as [|d ds]; [done|]. cbn [fmap list_fmap default units].
    change (default 1%Z (units (toLowerCase 98))) with 1%Z. lia.
Qed.

Lemma parseSize_well_formed_witness :
  parseSize ([49; 48]%N ++ [77%N]) = (parseInt [49; 48]%N * (1024 * 1024))%Z
  ∧ parseSize [49; 48]%N = parseInt [49; 48]%N.
Proof.
  apply (parseSize_well_formed [49; 48]%N 77%N (1024 * 1024)%Z).
  - discriminate.
  - repeat constructor.
  - cbn. lia.
  - reflexivity.
Defined.

(** X22.  Anything else falls back to 10 MiB: a string that does not
    start with a digit (the empty string included), and digits followed
    by more than one character or by a character other than b, k, m, g —
    so ["10MB"] and ["1.5m"] both give 10485760. *)
Theorem parseSize_falls_back (ds r : JsString) :
  Forall (λ c, isDigit c = true) ds ->
  (∀ c r', r = c :: r' -> isDigit c = false) ->
  ds = [] ∨ (∃ c r', r = c :: r' ∧ (r' ≠ [] ∨ units (toLowerCase c) = None)) ->
  parseSize (ds ++ r) = 10485760%Z.
Proof.
  intros Hds Hr Hbad. unfold parseSize, matchSize.
  rewrite (spanDigits_app ds r Hds Hr).
  destruct Hbad as [->|(c & r' & -> & Hbad)]; [done|].
  destruct ds as [|d ds]; [done|].
  destruct r' as [|c' r'].
  - destruct Hbad as [Hbad|Hbad]; [done|]. by rewrite Hbad.
  - done.
Qed.

Lemma parseSize_falls_back_witness : parseSize ([49; 48]%N ++ [77; 66]%N) = 10485760%Z.
Proof.
  apply (parseSize_falls_back [49; 48]%N [77; 66]%N).
  - repeat constructor.
  - intros c r' [= <- <-]. reflexivity.
  - right. exists 77%N, [66%N]. split; [reflexivity|left; discriminate].
Defined.

Example parseSize_default_maxSize : parseSize tenM = 10485760%Z.
Proof. reflexivity. Qed.

Example parseSize_two_letter_unit : parseSize tenMB = 10485760%Z.
Proof. reflexivity. Qed.
